(** * Hard-circle particle simulation with homeostatic agents

    A shallow embedding of [Class 2/collision.py]: the classes [Particle],
    [Simulation], [hw1_environment], [homeostasis_agent] and [hwParticle].

    Numbers.  The program computes with Python floats and NumPy float32
    arrays.  Rounding is abstracted away: finite values are rationals and the
    arithmetic on them is exact.  What is kept of IEEE arithmetic is the
    not-a-number value that NumPy produces (with a warning, not an exception)
    when a NumPy scalar is divided by zero: positions and velocities live in
    NumPy arrays and are modelled by [num], rationals extended with [NaN].
    Radii, masses, the time step, temperatures and food stores are Python
    floats and are modelled by [Q].

    Objects.  The simulation keeps its particles in a Python list.  Every
    slot of that list holds an object of its own ([init_particles] appends a
    freshly constructed particle each time), so the list is modelled as a
    list of records, and mutating the object at index [i] is an update of
    slot [i]. *)

From Stdlib Require Import QArith Qabs Lqa Lia ZArith Bool.
From stdpp Require Import base list.

Open Scope Q_scope.

(** ** Rational comparisons as booleans *)

Definition Qltb (x y : Q) : bool :=
  match x ?= y with Lt => true | _ => false end.

Definition Qgtb (x y : Q) : bool := Qltb y x.

(** ** NumPy scalars: rationals extended with NaN *)

Inductive num : Type :=
  | Fin (q : Q)
  | NaN.

Coercion Fin : Q >-> num.

Declare Scope num_scope.
Delimit Scope num_scope with num.
Bind Scope num_scope with num.

Definition nadd (a b : num) : num :=
  match a, b with Fin x, Fin y => Fin (x + y) | _, _ => NaN end.

Definition nsub (a b : num) : num :=
  match a, b with Fin x, Fin y => Fin (x - y) | _, _ => NaN end.

Definition nmul (a b : num) : num :=
  match a, b with Fin x, Fin y => Fin (x * y) | _, _ => NaN end.

(** Division of NumPy scalars never raises.  A zero divisor gives a
    non-finite value; the model has the single non-finite value [NaN].  The
    only division of the program whose divisor can be zero is the one by the
    squared distance in [change_velocities], where the dividend is then zero
    as well (lemma [dot_zero_when_coincident] below), the case in which IEEE
    arithmetic gives NaN. *)
Definition ndiv (a b : num) : num :=
  match a, b with
  | Fin x, Fin y => if Qeq_bool y 0 then NaN else Fin (x / y)
  | _, _ => NaN
  end.

(** Comparisons with NaN are false. *)
Definition nlt (a b : num) : bool :=
  match a, b with Fin x, Fin y => Qltb x y | _, _ => false end.

Definition ngt (a b : num) : bool := nlt b a.

Infix "+" := nadd : num_scope.
Infix "-" := nsub : num_scope.
Infix "*" := nmul : num_scope.
Infix "/" := ndiv : num_scope.

Definition is_fin (a : num) : Prop :=
  match a with Fin _ => True | NaN => False end.

(** ** Two-component NumPy arrays *)

Definition vec : Type := (num * num)%type.

Declare Scope vec_scope.
Delimit Scope vec_scope with vec.

Definition vadd (a b : vec) : vec := ((a.1 + b.1)%num, (a.2 + b.2)%num).
Definition vsub (a b : vec) : vec := ((a.1 - b.1)%num, (a.2 - b.2)%num).

(** [s * a] for a scalar [s]. *)
Definition vscale (s : num) (a : vec) : vec := ((s * a.1)%num, (s * a.2)%num).

(** [a + s] and [a - s] for a scalar [s]: NumPy broadcasts the scalar. *)
Definition vadd_scalar (a : vec) (s : num) : vec := ((a.1 + s)%num, (a.2 + s)%num).
Definition vsub_scalar (a : vec) (s : num) : vec := ((a.1 - s)%num, (a.2 - s)%num).

(** [np.dot(a, b)]. *)
Definition dot (a b : vec) : num := (a.1 * b.1 + a.2 * b.2)%num.

(** [np.linalg.norm(a)**2]: in exact arithmetic the square of the square
    root of [a.a] is [a.a]. *)
Definition norm2 (a : vec) : num := dot a a.

(** [np.hypot(a.1, a.2) < s] for a Python float [s].  In exact arithmetic
    [sqrt(x^2 + y^2) < s] holds iff [0 < s] and [x^2 + y^2 < s^2]; with a NaN
    component the hypotenuse is NaN and the comparison is false. *)
Definition hypot_lt (a : vec) (s : Q) : bool :=
  match norm2 a with
  | Fin h2 => Qltb 0 s && Qltb h2 (s * s)
  | NaN => false
  end.

Infix "+" := vadd : vec_scope.
Infix "-" := vsub : vec_scope.

(** ** Exceptions and outcomes *)

Inductive exn : Type :=
  | AssertionError
  | AttributeError
  | IndexError
  | ValueError
  | ZeroDivisionError.

(** The outcome of running a piece of the program with a bound on the
    number of loop iterations: a value, a raised exception, or [OutOfFuel] when
    the bound was reached before the program returned. *)
Inductive outcome (A : Type) : Type :=
  | Ok (a : A)
  | Raise (e : exn)
  | OutOfFuel.

Arguments Ok {A} a.
Arguments Raise {A} e.
Arguments OutOfFuel {A}.

Definition bind {A B : Type} (m : outcome A) (f : A -> outcome B) : outcome B :=
  match m with
  | Ok a => f a
  | Raise e => Raise e
  | OutOfFuel => OutOfFuel
  end.

Notation "'let!' x ':=' m 'in' k" := (bind m (fun x => k))
  (at level 10, x pattern, m at level 100, k at level 200).

(** ** class Particle *)

Module Particle.

Record t : Type := mk {
  r : vec;          (* position, [self.r] *)
  v : vec;          (* velocity, [self.v] *)
  radius : Q;
  mass : Q;
  delete : bool
}.

Definition set_r (p : t) (r' : vec) : t :=
  mk r' (v p) (radius p) (mass p) (delete p).
Definition set_v (p : t) (v' : vec) : t :=
  mk (r p) v' (radius p) (mass p) (delete p).
Definition set_delete (p : t) (d : bool) : t :=
  mk (r p) (v p) (radius p) (mass p) d.

(** The properties [x], [y], [vx], [vy] and their setters. *)
Definition x (p : t) : num := (r p).1.
Definition y (p : t) : num := (r p).2.
Definition vx (p : t) : num := (v p).1.
Definition vy (p : t) : num := (v p).2.
Definition set_x (p : t) (a : num) : t := set_r p (a, y p).
Definition set_y (p : t) (a : num) : t := set_r p (x p, a).
Definition set_vx (p : t) (a : num) : t := set_v p (a, vy p).
Definition set_vy (p : t) (a : num) : t := set_v p (vx p, a).

(** [Particle.__init__(x, y, vx, vy, radius)]. *)
Definition init (x y vx vy radius : Q) : t :=
  mk (Fin x, Fin y) (Fin vx, Fin vy) radius (radius * radius) false.

(** [self.overlaps(other)]. *)
Definition overlaps (self other : t) : bool :=
  hypot_lt (r self - r other)%vec (radius self + radius other).

(** [self.advance(dt)]. *)
Definition advance (dt : Q) (self : t) : t :=
  let self := set_r self (r self + vscale dt (v self))%vec in
  set_v self (vsub_scalar (v self) (Fin (0.5 * mass self * dt))).

End Particle.

(** ** Random draws

    The program draws from NumPy's global generator.  The draws are made
    explicit: [np.random.uniform(-1, 1, size=2)] is an element of a stream of
    pairs, read at a cursor that each draw advances. *)

Definition kicks : Type := nat -> Q * Q.

(** ** class homeostasis_agent(Particle) *)

Module homeostasis_agent.

Record t : Type := mk {
  super : Particle.t;       (* the attributes inherited from Particle *)
  food_store : Q;
  temperature : Q;
  set_point : Q;
  margin : Q;
  temp_log : list Q;
  food_log : list Q
}.

Definition set_super (a : t) (p : Particle.t) : t :=
  mk p (food_store a) (temperature a) (set_point a) (margin a)
     (temp_log a) (food_log a).
Definition set_food_store (a : t) (f : Q) : t :=
  mk (super a) f (temperature a) (set_point a) (margin a)
     (temp_log a) (food_log a).
Definition set_temperature (a : t) (T : Q) : t :=
  mk (super a) (food_store a) T (set_point a) (margin a)
     (temp_log a) (food_log a).
Definition set_logs (a : t) (tl fl : list Q) : t :=
  mk (super a) (food_store a) (temperature a) (set_point a) (margin a) tl fl.

(** The type of the method [move(self, dt, boost)], with the pair drawn by
    [np.random.uniform(-1, 1, size=2)] as an argument. *)
Definition move_method : Type := Q -> Q -> Q * Q -> t -> t.

(** [homeostasis_agent.__init__] with its default arguments, but for the
    food store. *)
Definition init (food_store : Q) : t :=
  mk (Particle.init 0.5 0.5 1.1 1.1 0.05) food_store 98 98 2 [] [].

Definition monitor (self : t) : Q := temperature self - set_point self.

Definition consume (dt : Q) (self : t) : t :=
  let self := set_food_store self (food_store self - 1) in
  set_temperature self (temperature self + 0.1).

(** The last two lines of both [move] methods:
    [self.v += boost; self.r += self.v * dt]. *)
Definition kick_and_drift (dt : Q) (boost : vec) (self : t) : t :=
  let p := super self in
  let p := Particle.set_v p (Particle.v p + boost)%vec in
  let p := Particle.set_r p (Particle.r p + vscale dt (Particle.v p))%vec in
  set_super self p.

Definition move : move_method := fun dt boost u self =>
  let boost : vec := (Fin (u.1 * boost), Fin (u.2 * boost)) in
  kick_and_drift dt boost self.

(** [exist(self, dt)].  The call [self.move(dt, boost = 0)] is resolved on
    the class of the object: [self_move] is that method. *)
Definition exist (self_move : move_method) (dt : Q) (u : Q * Q) (self : t) : t :=
  let self :=
    set_super self
      (Particle.set_v (super self) (vscale 0.95 (Particle.v (super self)))) in
  let self := self_move dt 0 u self in
  let self :=
    set_logs self (temp_log self ++ [temperature self])
                  (food_log self ++ [food_store self]) in
  let self :=
    if Qltb (food_store self) 0
    then set_super self (Particle.set_delete (super self) true)
    else self in
  if Qltb (temperature self) 85 || Qgtb (temperature self) 105
  then set_super self (Particle.set_delete (super self) true)
  else self.

(** The body shared, word for word, by [homeostasis_agent.advance] and
    [hwParticle.advance]; [rnd] is the stream of uniform pairs and [k] the
    cursor, returned advanced by the number of draws made. *)
Definition advance_body (self_move : move_method)
    (dt : Q) (rnd : kicks) (k : nat) (self : t) : t * nat :=
  let self := exist self_move dt (rnd k) self in
  let k := S k in
  let d_temp := monitor self in
  if Qltb d_temp (margin self) then (consume dt self, k)
  else if Qgtb d_temp (margin self) then (self_move dt 0.5 (rnd k) self, S k)
  else (self, k).

Definition advance : Q -> kicks -> nat -> t -> t * nat := advance_body move.

End homeostasis_agent.

(** ** class hwParticle(homeostasis_agent) *)

Module hwParticle.

Import homeostasis_agent.

Definition move : move_method := fun dt boost u self =>
  let self := set_food_store self (food_store self - boost * dt) in
  let boost : vec := (Fin (u.1 * boost), Fin (u.2 * boost)) in
  kick_and_drift dt boost self.

Definition advance : Q -> kicks -> nat -> t -> t * nat := advance_body move.

End hwParticle.

(** ** The objects of the particle list *)

Inductive agent_class : Type :=
  | Chomeostasis_agent
  | ChwParticle.

Inductive object : Type :=
  | Plain (p : Particle.t)
  | Agent (c : agent_class) (a : homeostasis_agent.t).

(** The method [move] of an object of class [c]. *)
Definition move_of (c : agent_class) : homeostasis_agent.move_method :=
  match c with
  | Chomeostasis_agent => homeostasis_agent.move
  | ChwParticle => hwParticle.move
  end.

(** The Particle attributes of an object, and their update. *)
Definition body (o : object) : Particle.t :=
  match o with
  | Plain p => p
  | Agent _ a => homeostasis_agent.super a
  end.

Definition with_body (o : object) (p : Particle.t) : object :=
  match o with
  | Plain _ => Plain p
  | Agent c a => Agent c (homeostasis_agent.set_super a p)
  end.

(** [p.advance(dt)], resolved on the class of [p]. *)
Definition object_advance (dt : Q) (rnd : kicks) (k : nat) (o : object) : object * nat :=
  match o with
  | Plain p => (Plain (Particle.advance dt p), k)
  | Agent Chomeostasis_agent a =>
      let (a', k') := homeostasis_agent.advance dt rnd k a in (Agent Chomeostasis_agent a', k')
  | Agent ChwParticle a =>
      let (a', k') := hwParticle.advance dt rnd k a in (Agent ChwParticle a', k')
  end.

(** ** The random field [srf]

    The field is produced outside the program ([generate_tempgrad] returns a
    scalar field of shape 100 x 100, [generate_vectorfield] a vector field of
    shape 2 x 100 x 100).  It is taken as a table indexed by grid points. *)

Inductive field : Type :=
  | ScalarField (f : nat -> nat -> Q)
  | VectorField (f : nat -> nat -> Q * Q).

(** [np.argmin(abs(np.linspace(0, 1, 100) - x))]: the first index [k] below
    100 at which [|k/99 - x|] is least; [np.argmin] of an array of NaN is 0. *)
Definition grid_point (k : nat) : Q := inject_Z (Z.of_nat k) / 99.

Fixpoint argmin_scan (x : Q) (k : nat) (count : nat) (best : nat) : nat :=
  match count with
  | O => best
  | S count =>
      let best :=
        if Qltb (Qabs (grid_point k - x)) (Qabs (grid_point best - x))
        then k else best in
      argmin_scan x (S k) count best
  end.

Definition grid_index (x : num) : nat :=
  match x with
  | Fin x => argmin_scan x 1 99 0
  | NaN => 0%nat
  end.

(** ** Draws of [place_particle]

    [ux], [uy] are the two components of [np.random.random(2)] and [sqrt_u]
    is the value of [np.sqrt(np.random.random())].  The last draw of
    [place_particle] is multiplied by [0*np.pi]: the angle [vphi] is 0, its
    cosine 1 and its sine 0. *)
Record draw : Type := mk_draw { ux : Q; uy : Q; sqrt_u : Q }.

Definition draws : Type := nat -> draw.

(** The argument [radius] of the constructor: one value, or a sequence. *)
Inductive radius_arg : Type :=
  | Scalar (rad : Q)
  | Sequence (rads : list Q).

(** [itertools.combinations(range(m), 2)], in the order it generates. *)
Definition combinations2 (m : nat) : list (nat * nat) :=
  flat_map (fun i => map (pair i) (seq (S i) (m - S i))) (seq 0 m).

(** ** class Simulation *)

Module Simulation.

Record t : Type := mk {
  particles : list object;
  n : Z;
  dt : Q;
  srf : option field
}.

Definition set_particles (w : t) (ps : list object) : t :=
  mk ps (n w) (dt w) (srf w).
Definition set_n (w : t) (m : Z) : t :=
  mk (particles w) m (dt w) (srf w).

(** The first half of [place_particle]: the particle constructed from the
    draws [d]. *)
Definition candidate (rad : Q) (d : draw) : Particle.t :=
  let x := rad + (1 - 2 * rad) * ux d in
  let y := rad + (1 - 2 * rad) * uy d in
  let vr := 0.05 * sqrt_u d + 0.05 in
  let vx := vr * 1 in
  let vy := vr * 0 in
  Particle.init x y vx vy rad.

(** [place_particle(self, rad, styles)] on the list [self.particles], with
    the draws [d]: the returned boolean and the list afterwards.  The
    [for ... else] loop appends when no placed particle overlaps the
    candidate. *)
Definition place_particle (rad : Q) (d : draw) (ps : list object)
    : bool * list object :=
  let particle := candidate rad d in
  if existsb (fun p2 => Particle.overlaps (body p2) particle) ps
  then (false, ps)
  else (true, ps ++ [Plain particle]).

(** [while not self.place_particle(rad, styles): pass], run for at most
    [fuel] calls; [k] is the cursor in the stream of draws. *)
Fixpoint place_retry (fuel : nat) (ds : draws) (rad : Q)
    (k : nat) (ps : list object) : outcome (list object * nat) :=
  match fuel with
  | O => OutOfFuel
  | S fuel =>
      let (placed, ps) := place_particle rad (ds k) ps in
      if placed then Ok (ps, S k)
      else place_retry fuel ds rad (S k) ps
  end.

(** [for i, rad in enumerate(radius): ...]. *)
Fixpoint place_each (fuel : nat) (ds : draws) (rads : list Q)
    (k : nat) (ps : list object) : outcome (list object * nat) :=
  match rads with
  | [] => Ok (ps, k)
  | rad :: rads =>
      let! (ps, k) := place_retry fuel ds rad k ps in
      place_each fuel ds rads k ps
  end.

(** [init_particles(self, n, radius)]: the new values of [self.particles]
    and [self.n].  [iter(radius)] raises TypeError on a single value, which
    is caught and replaced by the generator of [n] copies; on a sequence the
    assertion is evaluated. *)
Definition init_particles (fuel : nat) (ds : draws) (n : Z) (radius : radius_arg)
    : outcome (list object * Z) :=
  let! rads :=
    match radius with
    | Sequence rads =>
        if decide (n = Z.of_nat (length rads)) then Ok rads
        else Raise AssertionError
    | Scalar rad => Ok (replicate (Z.to_nat n) rad)
    end in
  let! (ps, _) := place_each fuel ds rads 0 [] in
  Ok (ps, n).

(** [Simulation.__init__(self, n, radius, styles, srf)]. *)
Definition init (fuel : nat) (ds : draws) (n : Z) (radius : radius_arg)
    (srf : option field) : outcome t :=
  let! (ps, n) := init_particles fuel ds n radius in
  Ok (mk ps n 0.01 srf).

(** [change_velocities(self, p1, p2)]: the two particles afterwards.
    [2*m2 / M] divides Python floats and raises on [M = 0]; the division by
    [d] divides NumPy scalars. *)
Definition change_velocities (p1 p2 : Particle.t)
    : outcome (Particle.t * Particle.t) :=
  let m1 := Particle.mass p1 in
  let m2 := Particle.mass p2 in
  let M := m1 + m2 in
  let r1 := Particle.r p1 in
  let r2 := Particle.r p2 in
  let d := norm2 (r1 - r2)%vec in
  let v1 := Particle.v p1 in
  let v2 := Particle.v p2 in
  if Qeq_bool M 0 then Raise ZeroDivisionError else
  let u1 := vsub v1 (vscale (Fin (2 * m2 / M) * dot (vsub v1 v2) (vsub r1 r2) / d)
                            (vsub r1 r2)) in
  let u2 := vsub v2 (vscale (Fin (2 * m1 / M) * dot (vsub v2 v1) (vsub r2 r1) / d)
                            (vsub r2 r1)) in
  Ok (Particle.set_v p1 u1, Particle.set_v p2 u2).

(** The loop of [handle_collisions] over the index pairs. *)
Fixpoint collide (pairs : list (nat * nat)) (ps : list object)
    : outcome (list object) :=
  match pairs with
  | [] => Ok ps
  | (i, j) :: pairs =>
      match ps !! i with
      | None => Raise IndexError
      | Some oi =>
          match ps !! j with
          | None => Raise IndexError
          | Some oj =>
              if Particle.overlaps (body oi) (body oj) then
                let! (p1, p2) := change_velocities (body oi) (body oj) in
                collide pairs (<[j := with_body oj p2]> (<[i := with_body oi p1]> ps))
              else collide pairs ps
          end
      end
  end.

Definition handle_collisions (w : t) : outcome t :=
  let! ps := collide (combinations2 (Z.to_nat (n w))) (particles w) in
  Ok (set_particles w ps).

(** [handle_boundary_collisions(self, p)] on the Particle attributes.  The
    program stores the clamped coordinate in a float32 array, hence rounded;
    here it is the exact [radius] or [1 - radius], as everywhere in this
    model.  Statements that compare a stored coordinate with the radius again
    hold of the program up to that rounding. *)
Definition handle_boundary_collisions (p : Particle.t) : Particle.t :=
  let p :=
    if nlt (Particle.x p - Fin (Particle.radius p))%num (Fin 0)
    then Particle.set_vx (Particle.set_x p (Fin (Particle.radius p)))
                         (Fin (-0.95) * Particle.vx p)%num
    else p in
  let p :=
    if ngt (Particle.x p + Fin (Particle.radius p))%num (Fin 1)
    then Particle.set_vx (Particle.set_x p (Fin (1 - Particle.radius p)))
                         (Fin (-0.95) * Particle.vx p)%num
    else p in
  let p :=
    if nlt (Particle.y p - Fin (Particle.radius p))%num (Fin 0)
    then Particle.set_vy (Particle.set_y p (Fin (Particle.radius p)))
                         (Fin (-0.95) * Particle.vy p)%num
    else p in
  if ngt (Particle.y p + Fin (Particle.radius p))%num (Fin 1)
  then Particle.set_vy (Particle.set_y p (Fin (1 - Particle.radius p)))
                       (Fin (-0.95) * Particle.vy p)%num
  else p.

Definition get_grid_inds (p : Particle.t) : nat * nat :=
  (grid_index (Particle.x p), grid_index (Particle.y p)).

(** [apply_forces(self, p)].  [self.srf.field[0][x_ind, y_ind]] indexes a
    vector field; on a scalar field [field[0]] is a row and the two indices
    raise IndexError. *)
Definition apply_forces (w : t) (p : Particle.t) : outcome Particle.t :=
  match srf w with
  | None => Ok p
  | Some (ScalarField _) => Raise IndexError
  | Some (VectorField f) =>
      let (x_ind, y_ind) := get_grid_inds p in
      let g := f x_ind y_ind in
      Ok (Particle.set_v p
            (Particle.v p + vscale (dt w) (vscale 2 (Fin g.1, Fin g.2)))%vec)
  end.

(** The loop of [advance]: [i] is the index of the list iterator, which
    stops when [i] is no longer an index of the list as it is then.
    [self.particles.remove(p)] deletes the first element equal to [p];
    the classes define no [__eq__], so equality is identity, and [p] is the
    object of slot [i]. *)
Fixpoint advance_loop (fuel : nat) (rnd : kicks) (i : nat) (w : t) (k : nat)
    : outcome (t * nat) :=
  match fuel with
  | O => OutOfFuel
  | S fuel =>
      match particles w !! i with
      | None => Ok (w, k)
      | Some p =>
          if Particle.delete (body p) then
            let w := set_particles w (delete i (particles w)) in
            let w := set_n w (n w - 1)%Z in
            advance_loop fuel rnd (S i) w k
          else
            let (p, k) := object_advance (dt w) rnd k p in
            let p := with_body p (handle_boundary_collisions (body p)) in
            let! b := apply_forces w (body p) in
            let p := with_body p b in
            advance_loop fuel rnd (S i) (set_particles w (<[i := p]> (particles w))) k
      end
  end.

(** [advance(self)]; the iterator makes at most one step per element of
    the list it started on, and one more to find the end. *)
Definition advance (rnd : kicks) (w : t) (k : nat) : outcome (t * nat) :=
  let! (w, k) := advance_loop (S (length (particles w))) rnd 0 w k in
  let! w := handle_collisions w in
  Ok (w, k).

End Simulation.

(** ** class hw1_environment(Simulation) *)

Module hw1_environment.

Import Simulation.

(** [interact(self, p)].  [self.srf.field[x_ind, y_ind]] is a number on a
    scalar field.  Without a field the attribute access raises; on a vector
    field the first index ranges over the two components, and the row
    obtained for an index below 2 has no truth value. *)
Definition interact (w : t) (p : object) : outcome object :=
  let p := with_body p (handle_boundary_collisions (body p)) in
  let (x_ind, y_ind) := get_grid_inds (body p) in
  match srf w with
  | None => Raise AttributeError
  | Some (VectorField _) =>
      if (x_ind <? 2)%nat then Raise ValueError else Raise IndexError
  | Some (ScalarField f) =>
      let g := f x_ind y_ind in
      let p :=
        match p with
        | Agent c a =>
            Agent c (homeostasis_agent.set_temperature a
                       (homeostasis_agent.temperature a + g * dt w))
        | Plain _ => p
        end in
      let p :=
        if Qgtb g 0
        then with_body p (Particle.set_v (body p)
                (vadd_scalar (Particle.v (body p)) (Fin (0.075 * g * dt w))))
        else p in
      let p :=
        if Qltb g 0
        then with_body p (Particle.set_v (body p)
                (vadd_scalar (Particle.v (body p)) (Fin (0.01 * g * dt w))))
        else p in
      Ok p
  end.

Fixpoint advance_loop (fuel : nat) (rnd : kicks) (i : nat) (w : t) (k : nat)
    : outcome (t * nat) :=
  match fuel with
  | O => OutOfFuel
  | S fuel =>
      match particles w !! i with
      | None => Ok (w, k)
      | Some p =>
          if Particle.delete (body p) then
            let w := set_particles w (delete i (particles w)) in
            let w := set_n w (n w - 1)%Z in
            advance_loop fuel rnd (S i) w k
          else
            let (p, k) := object_advance (dt w) rnd k p in
            let! p := interact w p in
            advance_loop fuel rnd (S i) (set_particles w (<[i := p]> (particles w))) k
      end
  end.

Definition advance (rnd : kicks) (w : t) (k : nat) : outcome (t * nat) :=
  let! (w, k) := advance_loop (S (length (particles w))) rnd 0 w k in
  let! w := handle_collisions w in
  Ok (w, k).

End hw1_environment.

(** ** Vocabulary of the statements *)

(** Two NumPy scalars are finite and equal as rationals. *)
Definition num_eq (a b : num) : Prop :=
  match a, b with Fin x, Fin y => x == y | _, _ => False end.

(** Position and velocity hold no NaN. *)
Definition finite (p : Particle.t) : Prop :=
  is_fin (Particle.x p) /\ is_fin (Particle.y p) /\
  is_fin (Particle.vx p) /\ is_fin (Particle.vy p).

Definition centres_coincide (p1 p2 : Particle.t) : Prop :=
  num_eq (Particle.x p1) (Particle.x p2) /\ num_eq (Particle.y p1) (Particle.y p2).

(** Total momentum [m1 v1 + m2 v2], by component, and total kinetic energy
    [m1 |v1|^2 / 2 + m2 |v2|^2 / 2] of a pair. *)
Definition momentum_x (p1 p2 : Particle.t) : num :=
  (Fin (Particle.mass p1) * Particle.vx p1 + Fin (Particle.mass p2) * Particle.vx p2)%num.

Definition momentum_y (p1 p2 : Particle.t) : num :=
  (Fin (Particle.mass p1) * Particle.vy p1 + Fin (Particle.mass p2) * Particle.vy p2)%num.

Definition kinetic_energy (p1 p2 : Particle.t) : num :=
  (Fin 0.5 * Fin (Particle.mass p1) * norm2 (Particle.v p1)
   + Fin 0.5 * Fin (Particle.mass p2) * norm2 (Particle.v p2))%num.

(** The velocity of [p] after an elastic collision with [other]:
    [v - (2 m' / (m + m')) ((v - v') . (r - r') / d) (r - r')]. *)
Definition elastic_update (p other : Particle.t) : vec :=
  let M := Particle.mass p + Particle.mass other in
  let dr := vsub (Particle.r p) (Particle.r other) in
  let dv := vsub (Particle.v p) (Particle.v other) in
  vsub (Particle.v p)
       (vscale (Fin (2 * Particle.mass other / M) * dot dv dr / norm2 dr)%num dr).

(** Equality of vectors, component by component. *)
Definition vec_eq (a b : vec) : Prop := num_eq a.1 b.1 /\ num_eq a.2 b.2.

(** What one wall check pair does on one axis: position [pos] and velocity
    component [vel] before, [pos'] and [vel'] after. *)
Definition axis_reflected (rad : Q) (pos vel pos' vel' : num) : Prop :=
  (nlt (pos - Fin rad) (Fin 0) = true ->
     pos' = Fin rad /\ vel' = (Fin (-0.95) * vel)%num) /\
  (ngt (pos + Fin rad) (Fin 1) = true ->
     pos' = Fin (1 - rad) /\ vel' = (Fin (-0.95) * vel)%num) /\
  (nlt (pos - Fin rad) (Fin 0) = false -> ngt (pos + Fin rad) (Fin 1) = false ->
     pos' = pos /\ vel' = vel).

(** The disc of [p] lies in the unit square. *)
Definition inside_unit_square (p : Particle.t) : Prop :=
  match Particle.r p with
  | (Fin x, Fin y) =>
      0 <= x - Particle.radius p /\ x + Particle.radius p <= 1 /\
      0 <= y - Particle.radius p /\ y + Particle.radius p <= 1
  | _ => False
  end.

(** [np.random.random] returns values in the half-open interval from 0 to 1. *)
Definition valid_draw (d : draw) : Prop :=
  0 <= ux d /\ ux d < 1 /\ 0 <= uy d /\ uy d < 1.

(** The death condition tested by [exist]. *)
Definition out_of_bounds (a : homeostasis_agent.t) : Prop :=
  homeostasis_agent.food_store a < 0 \/
  homeostasis_agent.temperature a < 85 \/
  105 < homeostasis_agent.temperature a.

Definition deleted (a : homeostasis_agent.t) : bool :=
  Particle.delete (homeostasis_agent.super a).

(** [o'] is [o] with, at most, another velocity. *)
Definition same_but_velocity (o o' : object) : Prop :=
  o' = with_body o (Particle.set_v (body o) (Particle.v (body o'))).

(** Every slot of [ps'] holds the object of the same slot of [ps], up to the
    velocity. *)
Definition velocities_apart (ps ps' : list object) : Prop :=
  length ps' = length ps /\
  forall k o, ps !! k = Some o ->
    exists o', ps' !! k = Some o' /\ same_but_velocity o o'.

(** Index [k] belongs to a pair of [pairs] whose particles overlap in [ps]. *)
Definition touched (ps : list object) (pairs : list (nat * nat)) (k : nat) : Prop :=
  exists i j oi oj,
    (i, j) ∈ pairs /\ (k = i \/ k = j) /\
    ps !! i = Some oi /\ ps !! j = Some oj /\
    Particle.overlaps (body oi) (body oj) = true.

(** Index [k] belongs to an overlapping pair of the simulation. *)
Definition in_overlapping_pair (w : Simulation.t) (k : nat) : Prop :=
  exists i j oi oj,
    (i < j)%nat /\ (j < Z.to_nat (Simulation.n w))%nat /\ (k = i \/ k = j) /\
    Simulation.particles w !! i = Some oi /\
    Simulation.particles w !! j = Some oj /\
    Particle.overlaps (body oi) (body oj) = true.

(** What a tick is meant to do to the objects [ps], visited once each in
    order: advance, handle the walls, apply the forces.  [w] gives the time
    step and the field. *)
Fixpoint visit_each (w : Simulation.t) (rnd : kicks) (k : nat) (ps : list object)
    : outcome (list object * nat) :=
  match ps with
  | [] => Ok ([], k)
  | p :: ps =>
      let (p, k) := object_advance (Simulation.dt w) rnd k p in
      let p := with_body p (Simulation.handle_boundary_collisions (body p)) in
      let! b := Simulation.apply_forces w (body p) in
      let p := with_body p b in
      let! (ps, k) := visit_each w rnd k ps in
      Ok (p :: ps, k)
  end.

(** The invariant set up by the constructors: the mass is the squared
    radius. *)
Definition mass_from_radius (o : object) : Prop :=
  Particle.mass (body o) == Particle.radius (body o) * Particle.radius (body o).

(** ** Example configurations *)

Definition still : kicks := fun _ => (0, 0).

Definition corner_draws : draws := fun _ => mk_draw 0 0 0.

(** A particle marked for removal, followed by a live one. *)
Definition p_dead : Particle.t :=
  Particle.set_delete (Particle.init 0.2 0.2 0.1 0 0.01) true.
Definition p_live : Particle.t := Particle.init 0.5 0.5 0.1 0 0.01.
Definition p_dead' : Particle.t :=
  Particle.set_delete (Particle.init 0.8 0.8 0.1 0 0.01) true.

Definition w_dead_live : Simulation.t :=
  Simulation.mk [Plain p_dead; Plain p_live] 2 0.01 None.
Definition w_dead_dead : Simulation.t :=
  Simulation.mk [Plain p_dead; Plain p_dead'] 2 0.01 None.
Definition w_dead_live_scalar : Simulation.t :=
  Simulation.mk [Plain p_dead; Plain p_live] 2 0.01 (Some (ScalarField (fun _ _ => 0))).

(** Two particles at the same place, moving against each other. *)
Definition p_east : Particle.t := Particle.init 0.5 0.5 0.1 0 0.01.
Definition p_west : Particle.t := Particle.init 0.5 0.5 (-0.1) 0 0.01.
Definition w_coincident : Simulation.t :=
  Simulation.mk [Plain p_east; Plain p_west] 2 0.01 None.

(** A head-on pair, a third particle far away, and an agent. *)
Definition p_left : Particle.t := Particle.init 0.3 0.3 0.1 0 0.01.
Definition p_right : Particle.t := Particle.init 0.315 0.3 (-0.1) 0 0.01.
Definition p_far : Particle.t := Particle.init 0.1 0.9 0 0.2 0.02.
Definition w_head_on : Simulation.t :=
  Simulation.mk [Plain p_left; Plain p_right; Plain p_far;
                 Agent Chomeostasis_agent (homeostasis_agent.init 100)] 4 0.01 None.

(** A particle wider than the domain, and one at the left wall. *)
Definition p_wide : Particle.t := Particle.init 0.5 0.5 (-1) 0 0.6.
Definition p_at_wall : Particle.t := Particle.init 0.005 0.5 (-1) 0 0.01.

(** Agents: healthy, overheated, and exactly at the margin. *)
Definition a_healthy : homeostasis_agent.t := homeostasis_agent.init 100.
Definition a_hot : homeostasis_agent.t :=
  homeostasis_agent.set_temperature (homeostasis_agent.init 100) 106.
Definition a_warm : homeostasis_agent.t :=
  homeostasis_agent.set_temperature (homeostasis_agent.init 100) 101.
Definition a_margin : homeostasis_agent.t :=
  homeostasis_agent.set_temperature (homeostasis_agent.init 100) 100.

(** ** Further vocabulary *)

(** No wall check fires on an axis: the position is NaN, or the disc is
    between the two walls. *)
Definition axis_clear (rad : Q) (pos : num) : Prop :=
  nlt (pos - Fin rad) (Fin 0) = false /\ ngt (pos + Fin rad) (Fin 1) = false.

(** The vector [a] turned by a quarter. *)
Definition perp (a : vec) : vec := ((Fin 0 - a.2)%num, a.1).

(** The opposite of a scalar. *)
Definition nopp (a : num) : num := (Fin 0 - a)%num.

(** A simulation whose count is ahead of its list, and one whose count is
    behind it: the particle beyond the count sits on the first one. *)
Definition w_count_ahead : Simulation.t :=
  Simulation.mk [Plain p_left; Plain p_far] 3 0.01 None.
Definition w_count_behind : Simulation.t :=
  Simulation.mk [Plain p_left; Plain p_far; Plain p_right] 2 0.01 None.

(** No two objects of the list overlap. *)
Definition pairwise_apart (ps : list object) : Prop :=
  forall i j oi oj, i <> j -> ps !! i = Some oi -> ps !! j = Some oj ->
    Particle.overlaps (body oi) (body oj) = false.

(** The radii asked of the constructor, one per particle. *)
Definition requested_radii (n : Z) (radius : radius_arg) : list Q :=
  match radius with
  | Scalar rad => replicate (Z.to_nat n) rad
  | Sequence rads => rads
  end.

(** [o] is the plain particle that [place_particle] builds for the radius
    [rad] from one of the draws of [ds]. *)
Definition placed (ds : draws) (rad : Q) (o : object) : Prop :=
  exists k, o = Plain (Simulation.candidate rad (ds k)).

(** [np.sqrt(np.random.random())] lies in the half-open unit interval. *)
Definition valid_speed_draw (d : draw) : Prop := 0 <= sqrt_u d /\ sqrt_u d < 1.

(** Draws that put a first particle in the corner and the next ones in the
    middle, and the simulation of two particles built from them. *)
Definition two_draws : draws :=
  fun k => match k with O => mk_draw 0 0 0 | S _ => mk_draw 0.5 0.5 0.25 end.

Definition w_two : Simulation.t :=
  Simulation.mk [Plain (Simulation.candidate 0.01 (two_draws 0%nat));
                 Plain (Simulation.candidate 0.01 (two_draws 1%nat))] 2 0.01 None.

(** The count of a simulation minus the length of its list. *)
Definition count_offset (w : Simulation.t) : Z :=
  (Simulation.n w - Z.of_nat (length (Simulation.particles w)))%Z.

Definition unmarked (o : object) : Prop := Particle.delete (body o) = false.

(** The live particle, in the default kind of field. *)
Definition w_live_scalar : Simulation.t :=
  Simulation.mk [Plain p_live] 1 0.01 (Some (ScalarField (fun _ _ => 0))).
Definition w_live : Simulation.t := Simulation.mk [Plain p_live; Plain p_far] 2 0.01 None.

(** The agent [a] with its deleted flag set. *)
Definition mark (a : homeostasis_agent.t) : homeostasis_agent.t :=
  homeostasis_agent.set_super a
    (Particle.set_delete (homeostasis_agent.super a) true).

(** One tick of an agent of class [c]: the method [advance] of the class. *)
Definition agent_advance (c : agent_class) (dt : Q) (rnd : kicks) (k : nat)
    (a : homeostasis_agent.t) : homeostasis_agent.t * nat :=
  match c with
  | Chomeostasis_agent => homeostasis_agent.advance dt rnd k a
  | ChwParticle => hwParticle.advance dt rnd k a
  end.

(** A dead agent that the policy would still feed. *)
Definition a_dead : homeostasis_agent.t := mark (homeostasis_agent.init 100).

(** [k] calls of [Particle.advance] in a row. *)
Definition advance_times (dt : Q) (k : nat) (p : Particle.t) : Particle.t :=
  Nat.iter k (Particle.advance dt) p.

(** The rational held by a finite scalar. *)
Definition fin_val (a : num) : Q :=
  match a with Fin q => q | NaN => 0 end.

(** Momentum components and kinetic energy of one particle with a finite
    velocity, and their sums over a list. *)
Definition px (p : Particle.t) : Q := Particle.mass p * fin_val (Particle.vx p).
Definition py (p : Particle.t) : Q := Particle.mass p * fin_val (Particle.vy p).
Definition ke (p : Particle.t) : Q :=
  0.5 * Particle.mass p *
  (fin_val (Particle.vx p) * fin_val (Particle.vx p)
   + fin_val (Particle.vy p) * fin_val (Particle.vy p)).

Definition total (f : Particle.t -> Q) (ps : list object) : Q :=
  fold_right (fun o acc => f (body o) + acc) 0 ps.

(** No pair of [pairs] overlaps in [ps] with coinciding centres. *)
Definition no_coincident_overlap (ps : list object) (pairs : list (nat * nat)) : Prop :=
  forall i j oi oj,
    (i, j) ∈ pairs -> ps !! i = Some oi -> ps !! j = Some oj ->
    Particle.overlaps (body oi) (body oj) = true ->
    ~ centres_coincide (body oi) (body oj).

(** * Facts *)

(** ** Comparisons *)

Lemma Qltb_lt (x y : Q) : Qltb x y = true <-> x < y.
Proof. unfold Qltb. rewrite Qlt_alt. destruct (x ?= y); split; congruence. Qed.

Lemma Qltb_ge (x y : Q) : Qltb x y = false <-> y <= x.
Proof.
  rewrite <- not_true_iff_false, Qltb_lt.
  split; [apply Qnot_lt_le | apply Qle_not_lt].
Qed.

Lemma Qeq_bool_false (x y : Q) : ~ x == y -> Qeq_bool x y = false.
Proof. intros H. apply not_true_iff_false. rewrite Qeq_bool_iff. exact H. Qed.

Lemma Qeq_bool_true (x y : Q) : x == y -> Qeq_bool x y = true.
Proof. apply Qeq_bool_iff. Qed.

Lemma sum_squares_zero (a b : Q) : a * a + b * b == 0 -> a == 0 /\ b == 0.
Proof. intros H. split; nra. Qed.

(** Turns the boolean comparisons of the context into propositions. *)
Ltac qprop :=
  unfold ngt, nlt, Qgtb in *; cbn in *;
  repeat match goal with
  | H : Qltb _ _ = true |- _ => apply Qltb_lt in H
  | H : Qltb _ _ = false |- _ => apply Qltb_ge in H
  | H : false = true |- _ => discriminate H
  | H : true = false |- _ => discriminate H
  end.

(** ** Elastic collisions *)

(** The squared distance of two finite centres is zero exactly when the
    centres coincide. *)
Lemma norm2_zero_iff_coincide (p1 p2 : Particle.t) :
  num_eq (norm2 (vsub (Particle.r p1) (Particle.r p2))) (Fin 0)
  <-> centres_coincide p1 p2.
Proof.
  destruct p1 as [[[x1|] [y1|]] v1 rad1 m1 del1], p2 as [[[x2|] [y2|]] v2 rad2 m2 del2];
    unfold centres_coincide; cbn; try tauto.
  split.
  - intros H. apply sum_squares_zero in H as [Hx Hy]. split; lra.
  - intros [Hx Hy]. nra.
Qed.

(** When the squared distance is zero, so is the dividend of the division by
    it, whatever the finite velocities: the quotient is 0/0. *)
Lemma dot_zero_when_coincident (p1 p2 : Particle.t) :
  finite p1 -> finite p2 -> centres_coincide p1 p2 ->
  num_eq (dot (vsub (Particle.v p1) (Particle.v p2))
              (vsub (Particle.r p1) (Particle.r p2))) (Fin 0).
Proof.
  destruct p1 as [[[x1|] [y1|]] [[a1|] [b1|]] rad1 m1 del1],
           p2 as [[[x2|] [y2|]] [[a2|] [b2|]] rad2 m2 del2];
    unfold finite, centres_coincide; cbn; try tauto.
  intros _ _ [Hx Hy]. nra.
Qed.

(** C3.  A collision of two particles with finite state, distinct centres
    and masses that do not sum to zero is resolved without an exception; both
    new velocities are given by the elastic formula evaluated on the state of
    the two particles before the call; total momentum (in each component) and
    total kinetic energy are the same before and after, exactly. *)
Theorem change_velocities_conserves (p1 p2 : Particle.t) :
  finite p1 -> finite p2 ->
  ~ centres_coincide p1 p2 ->
  ~ Particle.mass p1 + Particle.mass p2 == 0 ->
  exists q1 q2,
    Simulation.change_velocities p1 p2 = Ok (q1, q2) /\
    q1 = Particle.set_v p1 (Particle.v q1) /\
    q2 = Particle.set_v p2 (Particle.v q2) /\
    vec_eq (Particle.v q1) (elastic_update p1 p2) /\
    vec_eq (Particle.v q2) (elastic_update p2 p1) /\
    num_eq (momentum_x q1 q2) (momentum_x p1 p2) /\
    num_eq (momentum_y q1 q2) (momentum_y p1 p2) /\
    num_eq (kinetic_energy q1 q2) (kinetic_energy p1 p2).
Proof.
  destruct p1 as [[x1 y1] [a1 b1] rad1 m1 del1], p2 as [[x2 y2] [a2 b2] rad2 m2 del2].
  unfold finite, centres_coincide; cbn.
  intros (Hx1 & Hy1 & Ha1 & Hb1) (Hx2 & Hy2 & Ha2 & Hb2) Hdist HM.
  destruct x1 as [x1|], y1 as [y1|], a1 as [a1|], b1 as [b1|]; try contradiction.
  destruct x2 as [x2|], y2 as [y2|], a2 as [a2|], b2 as [b2|]; try contradiction.
  cbn in Hdist.
  assert (Hd : ~ (x1 - x2) * (x1 - x2) + (y1 - y2) * (y1 - y2) == 0).
  { intros H. apply sum_squares_zero in H as [Hx Hy]. apply Hdist. split; lra. }
  assert (Hd' : ~ (x2 - x1) * (x2 - x1) + (y2 - y1) * (y2 - y1) == 0).
  { intros H. apply Hd. lra. }
  assert (HM' : ~ m2 + m1 == 0) by (intros H; apply HM; lra).
  unfold Simulation.change_velocities; cbn.
  rewrite (Qeq_bool_false _ _ HM), (Qeq_bool_false _ _ Hd).
  eexists _, _. split; [reflexivity|]. cbn.
  split; [reflexivity|]. split; [reflexivity|].
  unfold vec_eq, elastic_update, momentum_x, momentum_y, kinetic_energy; cbn.
  rewrite (Qeq_bool_false _ _ Hd), (Qeq_bool_false _ _ Hd'); cbn.
  repeat split; field; auto.
Qed.

(** The hypotheses of the theorem hold of the head-on pair. *)
Lemma change_velocities_conserves_witness :
  exists q1 q2,
    Simulation.change_velocities p_left p_right = Ok (q1, q2) /\
    q1 = Particle.set_v p_left (Particle.v q1) /\
    q2 = Particle.set_v p_right (Particle.v q2) /\
    vec_eq (Particle.v q1) (elastic_update p_left p_right) /\
    vec_eq (Particle.v q2) (elastic_update p_right p_left) /\
    num_eq (momentum_x q1 q2) (momentum_x p_left p_right) /\
    num_eq (momentum_y q1 q2) (momentum_y p_left p_right) /\
    num_eq (kinetic_energy q1 q2) (kinetic_energy p_left p_right).
Proof.
  apply change_velocities_conserves.
  - vm_compute. tauto.
  - vm_compute. tauto.
  - vm_compute. intros [H _]. discriminate H.
  - vm_compute. discriminate.
Defined.


(** C2, as the program has it.  When the centres of the two particles
    coincide and the masses do not sum to zero, [change_velocities] raises
    nothing and does not skip the pair: the division by the squared distance
    gives NaN, and both components of both velocities become NaN.  Nothing
    else of the two particles changes. *)
Theorem change_velocities_coincident (p1 p2 : Particle.t) :
  centres_coincide p1 p2 ->
  ~ Particle.mass p1 + Particle.mass p2 == 0 ->
  Simulation.change_velocities p1 p2
    = Ok (Particle.set_v p1 (NaN, NaN), Particle.set_v p2 (NaN, NaN)).
Proof.
  destruct p1 as [[[x1|] [y1|]] [a1 b1] rad1 m1 del1],
           p2 as [[[x2|] [y2|]] [a2 b2] rad2 m2 del2];
    unfold centres_coincide; cbn; try tauto.
  intros [Hx Hy] HM.
  assert (Hd : (x1 - x2) * (x1 - x2) + (y1 - y2) * (y1 - y2) == 0) by nra.
  unfold Simulation.change_velocities; cbn.
  rewrite (Qeq_bool_false _ _ HM).
  destruct a1, b1, a2, b2; cbn; rewrite ?(Qeq_bool_true _ _ Hd); reflexivity.
Qed.

Lemma change_velocities_coincident_witness :
  Simulation.change_velocities p_east p_west
    = Ok (Particle.set_v p_east (NaN, NaN), Particle.set_v p_west (NaN, NaN)).
Proof.
  apply change_velocities_coincident.
  - vm_compute. split; reflexivity.
  - vm_compute. discriminate.
Defined.

(** C2, as stated, fails: in a collision pass over two overlapping particles
    at the same place the pair is not skipped; the pass returns with the
    velocities of both replaced by NaN. *)
Lemma coincident_pair_not_skipped :
  centres_coincide p_east p_west /\
  Particle.overlaps p_east p_west = true /\
  Simulation.handle_collisions w_coincident
    = Ok (Simulation.set_particles w_coincident
            [Plain (Particle.set_v p_east (NaN, NaN));
             Plain (Particle.set_v p_west (NaN, NaN))]) /\
  Particle.v p_east <> (NaN, NaN) /\
  Particle.v p_west <> (NaN, NaN).
Proof.
  split; [vm_compute; split; reflexivity|].
  split; [reflexivity|]. split; [reflexivity|].
  split; discriminate.
Qed.

(** ** Walls *)

Lemma reflect_axis_x (p : Particle.t) :
  Particle.radius p <= 0.5 ->
  let q := Simulation.handle_boundary_collisions p in
  axis_reflected (Particle.radius p)
    (Particle.x p) (Particle.vx p) (Particle.x q) (Particle.vx q).
Proof.
  destruct p as [[x y] [a b] rad m del]; cbn. intros Hrad.
  unfold Simulation.handle_boundary_collisions, axis_reflected; cbn.
  destruct x as [x|], y as [y|]; cbn.
  all: repeat match goal with
       | |- context [Qltb ?u ?w] => destruct (Qltb u w) eqn:?; cbn
       end.
  all: repeat split; intros; qprop; try reflexivity; try (exfalso; lra).
Qed.

Lemma reflect_axis_y (p : Particle.t) :
  Particle.radius p <= 0.5 ->
  let q := Simulation.handle_boundary_collisions p in
  axis_reflected (Particle.radius p)
    (Particle.y p) (Particle.vy p) (Particle.y q) (Particle.vy q).
Proof.
  destruct p as [[x y] [a b] rad m del]; cbn. intros Hrad.
  unfold Simulation.handle_boundary_collisions, axis_reflected; cbn.
  destruct x as [x|], y as [y|]; cbn.
  all: repeat match goal with
       | |- context [Qltb ?u ?w] => destruct (Qltb u w) eqn:?; cbn
       end.
  all: repeat split; intros; qprop; try reflexivity; try (exfalso; lra).
Qed.

Lemma handle_boundary_collisions_frame (p : Particle.t) :
  let q := Simulation.handle_boundary_collisions p in
  Particle.radius q = Particle.radius p /\
  Particle.mass q = Particle.mass p /\
  Particle.delete q = Particle.delete p.
Proof.
  unfold Simulation.handle_boundary_collisions; cbn.
  repeat match goal with
  | |- context [if ?c then _ else _] => destruct c; cbn
  end; auto.
Qed.

(** C5, for a radius of at most one half.  One call handles the two axes
    independently of each other: on an axis where the edge of the disc is
    beyond a wall, the position on that axis becomes [radius] (lower wall) or
    [1 - radius] (upper wall) and the velocity component on that axis is
    multiplied by -0.95; on an axis where it is not, both are unchanged.  A
    particle of radius 0.01 at x = 0.005 with vx = -1 ends with x = 0.01 and
    vx = 0.95. *)
Theorem handle_boundary_collisions_reflects (p : Particle.t) :
  Particle.radius p <= 0.5 ->
  let q := Simulation.handle_boundary_collisions p in
  axis_reflected (Particle.radius p)
    (Particle.x p) (Particle.vx p) (Particle.x q) (Particle.vx q) /\
  axis_reflected (Particle.radius p)
    (Particle.y p) (Particle.vy p) (Particle.y q) (Particle.vy q) /\
  Particle.radius q = Particle.radius p /\
  Particle.mass q = Particle.mass p /\
  Particle.delete q = Particle.delete p /\
  (Particle.radius p = 0.01 -> Particle.x p = Fin 0.005 -> Particle.vx p = Fin (-1) ->
   Particle.x q = Fin 0.01 /\ num_eq (Particle.vx q) (Fin 0.95)).
Proof.
  intros Hrad q.
  pose proof (reflect_axis_x p Hrad) as Hx.
  pose proof (reflect_axis_y p Hrad) as Hy.
  pose proof (handle_boundary_collisions_frame p) as Hf.
  cbn zeta in Hx, Hy, Hf. fold q in Hx, Hy, Hf.
  split; [exact Hx|]. split; [exact Hy|].
  destruct Hf as (Hf1 & Hf2 & Hf3).
  split; [exact Hf1|]. split; [exact Hf2|]. split; [exact Hf3|].
  intros Hr Hpx Hvx.
  destruct Hx as (Hlow & _ & _).
  rewrite Hr, Hpx, Hvx in Hlow.
  destruct (Hlow eq_refl) as [-> ->].
  split; reflexivity.
Qed.

Lemma handle_boundary_collisions_reflects_witness :
  Particle.x (Simulation.handle_boundary_collisions p_at_wall) = Fin 0.01 /\
  num_eq (Particle.vx (Simulation.handle_boundary_collisions p_at_wall)) (Fin 0.95).
Proof.
  assert (H : Particle.radius p_at_wall <= 0.5) by (vm_compute; discriminate).
  apply (handle_boundary_collisions_reflects p_at_wall H); reflexivity.
Defined.

(** C5, as stated, fails for a particle wider than the domain: its edge is
    beyond the lower wall, and after the call its velocity component is
    0.9025 times what it was, not -0.95 times: the check of the upper wall
    fires on the position set by the check of the lower wall. *)
Lemma wide_particle_bounces_twice :
  nlt (Particle.x p_wide - Fin (Particle.radius p_wide)) (Fin 0) = true /\
  num_eq (Particle.vx (Simulation.handle_boundary_collisions p_wide))
         (Fin 0.9025 * Particle.vx p_wide) /\
  ~ num_eq (Particle.vx (Simulation.handle_boundary_collisions p_wide))
           (Fin (-0.95) * Particle.vx p_wide) /\
  ~ axis_reflected (Particle.radius p_wide)
      (Particle.x p_wide) (Particle.vx p_wide)
      (Particle.x (Simulation.handle_boundary_collisions p_wide))
      (Particle.vx (Simulation.handle_boundary_collisions p_wide)).
Proof.
  split; [reflexivity|]. split; [reflexivity|].
  split; [vm_compute; discriminate|].
  intros (Hlow & _ & _). destruct (Hlow eq_refl) as [H _].
  vm_compute in H. discriminate H.
Qed.

(** ** Placement *)


Lemma place_particle_rejects (rad : Q) (d : draw) (ps : list object) :
  (exists p2, p2 ∈ ps /\
     Particle.overlaps (body p2) (Simulation.candidate rad d) = true) ->
  Simulation.place_particle rad d ps = (false, ps).
Proof.
  intros (p2 & Hin & Hov). unfold Simulation.place_particle.
  destruct (existsb _ ps) eqn:E; [reflexivity|].
  apply not_true_iff_false in E. exfalso. apply E.
  apply existsb_exists. exists p2. split; [|exact Hov].
  apply list_elem_of_In. exact Hin.
Qed.

Lemma place_particle_accepts (rad : Q) (d : draw) (ps : list object) :
  (forall p2, p2 ∈ ps ->
     Particle.overlaps (body p2) (Simulation.candidate rad d) = false) ->
  Simulation.place_particle rad d ps
    = (true, ps ++ [Plain (Simulation.candidate rad d)]).
Proof.
  intros Hfree. unfold Simulation.place_particle.
  destruct (existsb _ ps) eqn:E; [|reflexivity].
  apply existsb_exists in E as (p2 & Hin & Hov).
  apply list_elem_of_In in Hin. rewrite (Hfree p2 Hin) in Hov. discriminate Hov.
Qed.




Lemma place_particle_cases (rad : Q) (d : draw) (ps : list object) :
  Simulation.place_particle rad d ps = (false, ps) \/
  Simulation.place_particle rad d ps
    = (true, ps ++ [Plain (Simulation.candidate rad d)]).
Proof.
  unfold Simulation.place_particle. destruct (existsb _ ps); [left | right]; reflexivity.
Qed.

(** The retry loop runs out of any bound exactly when every draw within the
    bound is rejected. *)
Lemma place_retry_out_of_fuel (fuel : nat) (ds : draws) (rad : Q) :
  forall (k : nat) (ps : list object),
  Simulation.place_retry fuel ds rad k ps = OutOfFuel <->
  (forall i, (i < fuel)%nat ->
     (Simulation.place_particle rad (ds (k + i)%nat) ps).1 = false).
Proof.
  induction fuel as [|fuel IH]; intros k ps; cbn [Simulation.place_retry].
  - split; [intros _ i Hi; lia | reflexivity].
  - destruct (place_particle_cases rad (ds k) ps) as [E|E]; rewrite E.
    + rewrite IH. split.
      * intros H [|i] Hi.
        -- rewrite Nat.add_0_r, E. reflexivity.
        -- replace (k + S i)%nat with (S k + i)%nat by lia. apply H. lia.
      * intros H i Hi. replace (S k + i)%nat with (k + S i)%nat by lia.
        apply H. lia.
    + split; [discriminate|]. intros H.
      specialize (H 0%nat ltac:(lia)). rewrite Nat.add_0_r, E in H. discriminate H.
Qed.

(** It returns at the first accepted draw, however many were rejected. *)
Lemma place_retry_first_accepted (ds : draws) (rad : Q) (ps : list object) (j : nat) :
  forall (fuel k : nat),
  (j < fuel)%nat ->
  (forall i, (i < j)%nat ->
     (Simulation.place_particle rad (ds (k + i)%nat) ps).1 = false) ->
  (Simulation.place_particle rad (ds (k + j)%nat) ps).1 = true ->
  Simulation.place_retry fuel ds rad k ps
    = Ok (ps ++ [Plain (Simulation.candidate rad (ds (k + j)%nat))], S (k + j)).
Proof.
  induction j as [|j IH]; intros fuel k Hfuel Hrej Hacc;
    (destruct fuel as [|fuel]; [lia|]); cbn [Simulation.place_retry].
  - rewrite Nat.add_0_r in *.
    destruct (place_particle_cases rad (ds k) ps) as [E|E]; rewrite E in *.
    + discriminate Hacc.
    + reflexivity.
  - destruct (place_particle_cases rad (ds k) ps) as [E|E]; rewrite E.
    + replace (k + S j)%nat with (S k + j)%nat in * by lia.
      apply IH; [lia | | exact Hacc].
      intros i Hi. replace (S k + i)%nat with (k + S i)%nat by lia.
      apply Hrej. lia.
    + specialize (Hrej 0%nat ltac:(lia)). rewrite Nat.add_0_r, E in Hrej.
      discriminate Hrej.
Qed.

Lemma place_retry_never_raises (fuel : nat) (ds : draws) (rad : Q) :
  forall (k : nat) (ps : list object) (e : exn),
  Simulation.place_retry fuel ds rad k ps <> Raise e.
Proof.
  induction fuel as [|fuel IH]; intros k ps e; cbn [Simulation.place_retry].
  - discriminate.
  - destruct (place_particle_cases rad (ds k) ps) as [E|E]; rewrite E.
    + apply IH.
    + discriminate.
Qed.

Lemma place_each_never_raises (fuel : nat) (ds : draws) (rads : list Q) :
  forall (k : nat) (ps : list object) (e : exn),
  Simulation.place_each fuel ds rads k ps <> Raise e.
Proof.
  induction rads as [|rad rads IH]; intros k ps e; cbn [Simulation.place_each].
  - discriminate.
  - destruct (Simulation.place_retry fuel ds rad k ps) as [[ps' k']| e' |] eqn:E; cbn.
    + apply IH.
    + exfalso. exact (place_retry_never_raises _ _ _ _ _ _ E).
    + discriminate.
Qed.

(** The only exception of the constructor is the failed assertion. *)
Lemma init_raises_only_assertion (fuel : nat) (ds : draws) (n : Z)
    (radius : radius_arg) (srf : option field) (e : exn) :
  Simulation.init fuel ds n radius srf = Raise e -> e = AssertionError.
Proof.
  unfold Simulation.init, Simulation.init_particles.
  destruct radius as [rad|rads]; cbn.
  - destruct (Simulation.place_each fuel ds _ 0 []) as [[ps k]| e' |] eqn:E; cbn;
      try discriminate.
    exfalso. exact (place_each_never_raises _ _ _ _ _ _ E).
  - destruct (decide (n = Z.of_nat (length rads))); cbn; [|congruence].
    destruct (Simulation.place_each fuel ds _ 0 []) as [[ps k]| e' |] eqn:E; cbn;
      try discriminate.
    exfalso. exact (place_each_never_raises _ _ _ _ _ _ E).
Qed.

(** Two discs of radius 0.3 with centres in the unit square overlap. *)
Lemma radius_03_overlap (d d' : draw) :
  valid_draw d -> valid_draw d' ->
  Particle.overlaps (Simulation.candidate 0.3 d) (Simulation.candidate 0.3 d') = true.
Proof.
  destruct d as [u1 u2 s], d' as [u1' u2' s']. unfold valid_draw; cbn.
  intros (H1 & H2 & H3 & H4) (H1' & H2' & H3' & H4').
  unfold Particle.overlaps, hypot_lt; cbn.
  apply andb_true_iff. rewrite !Qltb_lt. split; [lra | nra].
Qed.

(** So the construction of two such particles returns within no bound. *)
Lemma infeasible_never_returns (ds : draws) (fuel : nat) (srf : option field) :
  (forall k, valid_draw (ds k)) ->
  Simulation.init fuel ds 2 (Scalar 0.3) srf = OutOfFuel.
Proof.
  intros Hds. unfold Simulation.init, Simulation.init_particles.
  change (replicate (Z.to_nat 2) 0.3) with [0.3; 0.3].
  cbn [bind Simulation.place_each].
  destruct fuel as [|fuel]; [reflexivity|].
  cbn [Simulation.place_retry]. rewrite place_particle_accepts by (intros p2 H; inversion H).
  cbn [bind app Simulation.place_each].
  assert (E : Simulation.place_retry (S fuel) ds 0.3 1
                [Plain (Simulation.candidate 0.3 (ds 0%nat))] = OutOfFuel).
  { apply place_retry_out_of_fuel. intros i _.
    rewrite place_particle_rejects; [reflexivity|].
    eexists. split; [left|]. apply radius_03_overlap; apply Hds. }
  cbn [Simulation.place_retry] in E. rewrite E. reflexivity.
Qed.

(** C7, as the program has it.  The number of retries has no cap: the loop
    of [init_particles] ends at the first accepted draw, after any number of
    rejected ones, and runs out of every bound in which all draws are
    rejected.  Placement signals no error: the only exception of the
    constructor is the failed length assertion.  For two particles of radius
    0.3, which cannot both lie in the unit square without overlapping,
    construction neither returns nor raises, whatever the draws and the
    bound. *)
Theorem placement_retries_without_cap (ds : draws) :
  (forall k, valid_draw (ds k)) ->
  (forall fuel rad k ps,
     Simulation.place_retry fuel ds rad k ps = OutOfFuel <->
     (forall i, (i < fuel)%nat ->
        (Simulation.place_particle rad (ds (k + i)%nat) ps).1 = false)) /\
  (forall fuel rad k ps j,
     (j < fuel)%nat ->
     (forall i, (i < j)%nat ->
        (Simulation.place_particle rad (ds (k + i)%nat) ps).1 = false) ->
     (Simulation.place_particle rad (ds (k + j)%nat) ps).1 = true ->
     Simulation.place_retry fuel ds rad k ps
       = Ok (ps ++ [Plain (Simulation.candidate rad (ds (k + j)%nat))], S (k + j))) /\
  (forall fuel n radius srf e,
     Simulation.init fuel ds n radius srf = Raise e -> e = AssertionError) /\
  (forall fuel srf, Simulation.init fuel ds 2 (Scalar 0.3) srf = OutOfFuel).
Proof.
  intros Hds. split; [|split; [|split]].
  - intros. apply place_retry_out_of_fuel.
  - intros. apply place_retry_first_accepted; assumption.
  - intros. eapply init_raises_only_assertion; eassumption.
  - intros. apply infeasible_never_returns. exact Hds.
Qed.

Lemma corner_draws_valid (k : nat) : valid_draw (corner_draws k).
Proof. vm_compute. intuition discriminate. Defined.

Lemma placement_retries_without_cap_witness :
  Simulation.init 1000 corner_draws 2 (Scalar 0.3) None = OutOfFuel.
Proof.
  apply (placement_retries_without_cap corner_draws corner_draws_valid).
Defined.

(** C7, as stated, fails: for two particles of radius 0.3 no bound on the
    number of placement attempts is enough for the constructor to return or
    to raise an error. *)
Lemma no_retry_cap :
  ~ exists fuel, Simulation.init fuel corner_draws 2 (Scalar 0.3) None <> OutOfFuel.
Proof.
  intros [fuel H]. apply H. apply infeasible_never_returns. apply corner_draws_valid.
Qed.

(** ** Validation of the configuration *)

Lemma init_single (fuel : nat) (ds : draws) (rad : Q) (srf : option field) :
  Simulation.init (S fuel) ds 1 (Scalar rad) srf
    = Ok (Simulation.mk [Plain (Simulation.candidate rad (ds 0%nat))] 1 0.01 srf).
Proof. reflexivity. Qed.

(** C8, as the program has it.  A radius sequence whose length differs from
    the particle count makes the constructor fail, with AssertionError, before
    any particle is placed; the constructor returns no simulation, so no step
    can run.  The radius itself is not validated: a simulation of one particle
    is constructed for every radius, zero and negative ones included. *)
Theorem init_checks_length_only (fuel : nat) (ds : draws) (n : Z)
    (rads : list Q) (rad : Q) (srf : option field) :
  n <> Z.of_nat (length rads) ->
  Simulation.init fuel ds n (Sequence rads) srf = Raise AssertionError /\
  Simulation.init (S fuel) ds 1 (Scalar rad) srf
    = Ok (Simulation.mk [Plain (Simulation.candidate rad (ds 0%nat))] 1 0.01 srf) /\
  Particle.radius (Simulation.candidate rad (ds 0%nat)) = rad.
Proof.
  intros Hn. split; [|split; [apply init_single | reflexivity]].
  unfold Simulation.init, Simulation.init_particles.
  destruct (decide (n = Z.of_nat (length rads))); [contradiction | reflexivity].
Qed.

Lemma init_checks_length_only_witness :
  Simulation.init 5 corner_draws 3 (Sequence [0.01; 0.02]) None = Raise AssertionError /\
  Simulation.init 6 corner_draws 1 (Scalar (-0.1)) None
    = Ok (Simulation.mk
            [Plain (Simulation.candidate (-0.1) (corner_draws 0%nat))] 1 0.01 None) /\
  Particle.radius (Simulation.candidate (-0.1) (corner_draws 0%nat)) = -0.1.
Proof.
  apply (init_checks_length_only 5 corner_draws 3 [0.01; 0.02] (-0.1) None).
  vm_compute. discriminate.
Defined.

(** C8, as stated, fails for the radius: with radius 0, and with a negative
    radius, the constructor returns a simulation. *)
Lemma nonpositive_radius_accepted :
  0 <= 0 /\ -0.1 <= 0 /\
  (exists w, Simulation.init 1 corner_draws 1 (Scalar 0) None = Ok w /\
     exists p, Simulation.particles w = [Plain p] /\ Particle.radius p = 0) /\
  (exists w, Simulation.init 1 corner_draws 1 (Scalar (-0.1)) None = Ok w /\
     exists p, Simulation.particles w = [Plain p] /\ Particle.radius p = -0.1).
Proof.
  split; [vm_compute; discriminate|]. split; [vm_compute; discriminate|].
  split; (eexists; split; [reflexivity|]; eexists; split; reflexivity).
Qed.

(** ** Agents *)

(** Neither [move] method changes the temperature, and with no boost the
    food store keeps its value. *)
Lemma move_of_temperature (c : agent_class) (dt boost : Q) (u : Q * Q)
    (a : homeostasis_agent.t) :
  homeostasis_agent.temperature (move_of c dt boost u a)
    = homeostasis_agent.temperature a /\
  homeostasis_agent.set_point (move_of c dt boost u a)
    = homeostasis_agent.set_point a /\
  homeostasis_agent.margin (move_of c dt boost u a)
    = homeostasis_agent.margin a /\
  Particle.delete (homeostasis_agent.super (move_of c dt boost u a))
    = Particle.delete (homeostasis_agent.super a).
Proof. destruct c; repeat split. Qed.

Lemma move_of_food_store (c : agent_class) (dt : Q) (u : Q * Q)
    (a : homeostasis_agent.t) :
  homeostasis_agent.food_store (move_of c dt 0 u a)
    == homeostasis_agent.food_store a.
Proof. destruct c; cbn; lra. Qed.

(** The flag after [exist], as a boolean expression of the state before. *)
Lemma exist_deleted (c : agent_class) (dt : Q) (u : Q * Q) (a : homeostasis_agent.t) :
  deleted (homeostasis_agent.exist (move_of c) dt u a)
    = deleted a
      || Qltb (homeostasis_agent.food_store (move_of c dt 0 u a)) 0
      || Qltb (homeostasis_agent.temperature a) 85
      || Qgtb (homeostasis_agent.temperature a) 105.
Proof.
  unfold homeostasis_agent.exist, deleted, Qgtb.
  destruct a as [[r v rad m del] food T sp mg tl fl].
  destruct c, del; cbn;
    match goal with
    | |- context [Qltb ?f 0] => destruct (Qltb f 0); cbn
    end;
    destruct (Qltb T 85), (Qltb 105 T); reflexivity.
Qed.

(** C4.  After a call of [exist], on an agent of either class, the flag is
    true exactly when it was true before or the food store is negative or the
    temperature is below 85 or above 105; so an agent whose flag was false
    gets it set exactly in these cases.  With a temperature of 106 the flag is
    set whatever the food store; with a food store of at least 0, a
    temperature from 85 to 105 and the flag false, the flag stays false. *)
Theorem exist_deletes_out_of_bounds (c : agent_class) (dt : Q) (u : Q * Q)
    (a : homeostasis_agent.t) :
  let a' := homeostasis_agent.exist (move_of c) dt u a in
  (deleted a' = true <-> deleted a = true \/ out_of_bounds a) /\
  (deleted a = false -> (deleted a' = true <-> out_of_bounds a)) /\
  (homeostasis_agent.temperature a == 106 -> deleted a' = true) /\
  (deleted a = false ->
   0 <= homeostasis_agent.food_store a ->
   85 <= homeostasis_agent.temperature a ->
   homeostasis_agent.temperature a <= 105 ->
   deleted a' = false).
Proof.
  intros a'. unfold a'. rewrite exist_deleted.
  pose proof (move_of_food_store c dt u a) as Hfood.
  unfold out_of_bounds, Qgtb.
  destruct (deleted a); cbn [orb].
  - repeat split; auto; discriminate.
  - destruct (Qltb (homeostasis_agent.food_store (move_of c dt 0 u a)) 0) eqn:E1;
    destruct (Qltb (homeostasis_agent.temperature a) 85) eqn:E2;
    destruct (Qltb 105 (homeostasis_agent.temperature a)) eqn:E3;
    qprop; repeat split; intros;
    repeat match goal with
    | H : _ \/ _ |- _ => destruct H
    end;
    try reflexivity; try discriminate; try (exfalso; lra);
    try (left; lra); try (right; left; lra); try (right; right; lra);
    try (right; left; lra); try (right; right; left; lra);
    try (right; right; right; lra).
Qed.

Lemma exist_deletes_out_of_bounds_witness :
  deleted (homeostasis_agent.exist (move_of ChwParticle) 0.01 (0, 0) a_hot) = true /\
  deleted (homeostasis_agent.exist (move_of Chomeostasis_agent) 0.01 (0, 0) a_healthy)
    = false.
Proof.
  split.
  - apply (exist_deletes_out_of_bounds ChwParticle 0.01 (0, 0) a_hot).
    reflexivity.
  - apply (exist_deletes_out_of_bounds Chomeostasis_agent 0.01 (0, 0) a_healthy).
    + reflexivity.
    + vm_compute. discriminate.
    + vm_compute. discriminate.
    + vm_compute. discriminate.
Defined.

(** [exist] leaves what [monitor] and the comparison read. *)
Lemma exist_monitor (c : agent_class) (dt : Q) (u : Q * Q) (a : homeostasis_agent.t) :
  homeostasis_agent.monitor (homeostasis_agent.exist (move_of c) dt u a)
    = homeostasis_agent.monitor a /\
  homeostasis_agent.margin (homeostasis_agent.exist (move_of c) dt u a)
    = homeostasis_agent.margin a.
Proof.
  unfold homeostasis_agent.exist, homeostasis_agent.monitor.
  destruct a as [[r v rad m del] food T sp mg tl fl].
  destruct c; cbn;
    repeat match goal with
    | |- context [if ?b then _ else _] => destruct b; cbn
    end; split; reflexivity.
Qed.

(** C6, as the program has it.  One tick of a [homeostasis_agent], with
    [e] the agent after [exist]: [monitor] is the temperature minus the set
    point, as before [exist], and it is compared with the margin itself, not
    with a band around zero.  If it is less than the margin, which is so for
    every deviation inside the band from minus the margin to the margin, the
    tick ends with [consume] on [e], which takes exactly 1 from the food
    store, adds exactly 0.1 to the temperature and leaves position and
    velocity as [exist] left them.  If it is greater than the margin the tick
    ends with [move] on [e] with boost 0.5, which leaves temperature and food
    store as they were.  Only if it equals the margin does the tick end with
    [e], no further action taken.  One draw is made in the first and the last
    case, two in the second. *)
Theorem agent_advance_branches (dt : Q) (rnd : kicks) (k : nat)
    (a : homeostasis_agent.t) :
  let e := homeostasis_agent.exist homeostasis_agent.move dt (rnd k) a in
  homeostasis_agent.monitor e
    = homeostasis_agent.temperature a - homeostasis_agent.set_point a /\
  homeostasis_agent.margin e = homeostasis_agent.margin a /\
  (homeostasis_agent.monitor e < homeostasis_agent.margin e ->
     homeostasis_agent.advance dt rnd k a = (homeostasis_agent.consume dt e, S k)) /\
  (Qabs (homeostasis_agent.monitor e) < homeostasis_agent.margin e ->
     homeostasis_agent.advance dt rnd k a = (homeostasis_agent.consume dt e, S k)) /\
  (homeostasis_agent.margin e < homeostasis_agent.monitor e ->
     homeostasis_agent.advance dt rnd k a
       = (homeostasis_agent.move dt 0.5 (rnd (S k)) e, S (S k))) /\
  (homeostasis_agent.monitor e == homeostasis_agent.margin e ->
     homeostasis_agent.advance dt rnd k a = (e, S k)) /\
  homeostasis_agent.food_store (homeostasis_agent.consume dt e)
    = homeostasis_agent.food_store e - 1 /\
  homeostasis_agent.temperature (homeostasis_agent.consume dt e)
    = homeostasis_agent.temperature e + 0.1 /\
  homeostasis_agent.super (homeostasis_agent.consume dt e)
    = homeostasis_agent.super e /\
  homeostasis_agent.food_store (homeostasis_agent.move dt 0.5 (rnd (S k)) e)
    = homeostasis_agent.food_store e /\
  homeostasis_agent.temperature (homeostasis_agent.move dt 0.5 (rnd (S k)) e)
    = homeostasis_agent.temperature e.
Proof.
  intros e.
  destruct (exist_monitor Chomeostasis_agent dt (rnd k) a) as [Hmon Hmar].
  cbn [move_of] in Hmon, Hmar. fold e in Hmon, Hmar.
  split; [exact Hmon|]. split; [exact Hmar|].
  unfold homeostasis_agent.advance, homeostasis_agent.advance_body. fold e.
  unfold Qgtb.
  pose proof (Qle_Qabs (homeostasis_agent.monitor e)) as Habs.
  destruct (Qltb (homeostasis_agent.monitor e) (homeostasis_agent.margin e)) eqn:E1;
  destruct (Qltb (homeostasis_agent.margin e) (homeostasis_agent.monitor e)) eqn:E2;
  apply Qltb_lt in E1 || apply Qltb_ge in E1;
  apply Qltb_lt in E2 || apply Qltb_ge in E2;
  repeat split; intros; try reflexivity; exfalso; lra.
Qed.

Lemma agent_advance_branches_witness :
  homeostasis_agent.advance 0.01 still 0 a_healthy
    = (homeostasis_agent.consume 0.01
         (homeostasis_agent.exist homeostasis_agent.move 0.01 (still 0%nat) a_healthy),
       1%nat) /\
  homeostasis_agent.advance 0.01 still 0 a_warm
    = (homeostasis_agent.move 0.01 0.5 (still 1%nat)
         (homeostasis_agent.exist homeostasis_agent.move 0.01 (still 0%nat) a_warm),
       2%nat) /\
  homeostasis_agent.advance 0.01 still 0 a_margin
    = (homeostasis_agent.exist homeostasis_agent.move 0.01 (still 0%nat) a_margin,
       1%nat).
Proof.
  split; [|split].
  - apply (agent_advance_branches 0.01 still 0 a_healthy). reflexivity.
  - apply (agent_advance_branches 0.01 still 0 a_warm). reflexivity.
  - apply (agent_advance_branches 0.01 still 0 a_margin). reflexivity.
Defined.

(** C6, as stated, fails: the default agent is at its set point, well within
    the margin, and its tick does not end without action: it consumes, so
    that the food store goes from 100 to 99 and the temperature from 98 to
    98.1. *)
Lemma within_margin_still_consumes :
  Qabs (homeostasis_agent.monitor a_healthy) < homeostasis_agent.margin a_healthy /\
  homeostasis_agent.advance 0.01 still 0 a_healthy
    <> (homeostasis_agent.exist homeostasis_agent.move 0.01 (still 0%nat) a_healthy,
        1%nat) /\
  homeostasis_agent.food_store (homeostasis_agent.advance 0.01 still 0 a_healthy).1
    == 99 /\
  homeostasis_agent.temperature (homeostasis_agent.advance 0.01 still 0 a_healthy).1
    == 98.1.
Proof.
  split; [reflexivity|]. split; [|split; reflexivity].
  intros H. apply (f_equal (fun r => homeostasis_agent.food_store r.1)) in H.
  vm_compute in H. discriminate H.
Qed.

(** ** The tick *)

(** The bound given to the loop of [advance] is never reached. *)
Lemma advance_loop_returns (rnd : kicks) (fuel : nat) :
  forall (i : nat) (w : Simulation.t) (k : nat),
  (length (Simulation.particles w) - i < fuel)%nat ->
  Simulation.advance_loop fuel rnd i w k <> OutOfFuel.
Proof.
  induction fuel as [|fuel IH]; intros i w k Hlen; cbn [Simulation.advance_loop].
  - lia.
  - destruct (Simulation.particles w !! i) as [p|] eqn:E; [|discriminate].
    pose proof (lookup_lt_Some _ _ _ E) as Hi.
    destruct (Particle.delete (body p)).
    + apply IH. cbn. rewrite length_delete by (rewrite E; eauto). lia.
    + destruct (object_advance (Simulation.dt w) rnd k p) as [p' k'].
      destruct (Simulation.apply_forces w _) as [b| e |] eqn:F; cbn.
      * apply IH. cbn. rewrite length_insert. lia.
      * discriminate.
      * unfold Simulation.apply_forces in F.
        destruct (Simulation.srf w) as [[f|f]|]; discriminate F.
Qed.

Lemma collide_returns (pairs : list (nat * nat)) :
  forall ps, Simulation.collide pairs ps <> OutOfFuel.
Proof.
  induction pairs as [|[i j] pairs IH]; intros ps; cbn [Simulation.collide].
  - discriminate.
  - destruct (ps !! i) as [oi|]; [|discriminate].
    destruct (ps !! j) as [oj|]; [|discriminate].
    destruct (Particle.overlaps (body oi) (body oj)); [|apply IH].
    unfold Simulation.change_velocities.
    destruct (Qeq_bool _ 0); cbn [bind]; [discriminate | apply IH].
Qed.

(** So a tick returns or raises: the model of [advance] never runs out of
    its bound. *)
Lemma advance_returns (rnd : kicks) (w : Simulation.t) (k : nat) :
  Simulation.advance rnd w k <> OutOfFuel.
Proof.
  unfold Simulation.advance.
  destruct (Simulation.advance_loop _ rnd 0 w k) as [[w1 k1]| e |] eqn:E; cbn [bind].
  - unfold Simulation.handle_collisions.
    destruct (Simulation.collide _ (Simulation.particles w1)) as [ps| e |] eqn:C;
      cbn [bind]; try discriminate.
    exfalso. exact (collide_returns _ _ C).
  - discriminate.
  - exfalso. revert E. apply advance_loop_returns. lia.
Qed.

(** The loop leaves the slots below the index of the iterator as they are. *)
Lemma advance_loop_prefix (rnd : kicks) (fuel : nat) :
  forall (i : nat) (w : Simulation.t) (k : nat) (w' : Simulation.t) (k' : nat),
  Simulation.advance_loop fuel rnd i w k = Ok (w', k') ->
  forall j, (j < i)%nat ->
  Simulation.particles w' !! j = Simulation.particles w !! j.
Proof.
  induction fuel as [|fuel IH]; intros i w k w' k' H j Hj;
    cbn [Simulation.advance_loop] in H; [discriminate H|].
  destruct (Simulation.particles w !! i) as [p|] eqn:E.
  - destruct (Particle.delete (body p)).
    + rewrite (IH _ _ _ _ _ H j ltac:(lia)). cbn.
      apply list_lookup_delete_lt. exact Hj.
    + destruct (object_advance (Simulation.dt w) rnd k p) as [p' k1].
      destruct (Simulation.apply_forces w _) as [b| e |]; cbn in H;
        try discriminate H.
      rewrite (IH _ _ _ _ _ H j ltac:(lia)). cbn.
      apply list_lookup_insert_ne. lia.
  - injection H as <- <-. reflexivity.
Qed.

(** Whatever follows a removed particle is not visited: when the first
    particle of the list is marked, the loop ends with the second one, as it
    was, in the first slot. *)
Lemma advance_loop_skips_successor (rnd : kicks) (fuel : nat) (w : Simulation.t)
    (k : nat) (d q : object) (rest : list object) (w' : Simulation.t) (k' : nat) :
  Simulation.particles w = d :: q :: rest ->
  Particle.delete (body d) = true ->
  Simulation.advance_loop fuel rnd 0 w k = Ok (w', k') ->
  Simulation.particles w' !! 0%nat = Some q.
Proof.
  intros Hps Hdel H. destruct fuel as [|fuel]; [discriminate H|].
  cbn [Simulation.advance_loop] in H. rewrite Hps in H. cbn in H.
  rewrite Hdel in H.
  rewrite (advance_loop_prefix _ _ _ _ _ _ _ H 0%nat ltac:(lia)).
  reflexivity.
Qed.

Lemma visit_each_set_particles (w : Simulation.t) (l : list object) (rnd : kicks)
    (ps : list object) :
  forall k, visit_each (Simulation.set_particles w l) rnd k ps = visit_each w rnd k ps.
Proof.
  induction ps as [|p ps IH]; intros k; cbn [visit_each]; [reflexivity|].
  change (Simulation.dt (Simulation.set_particles w l)) with (Simulation.dt w).
  destruct (object_advance (Simulation.dt w) rnd k p) as [p1 k1].
  change (Simulation.apply_forces (Simulation.set_particles w l))
    with (Simulation.apply_forces w).
  destruct (Simulation.apply_forces w _) as [b| e |]; cbn [bind]; try reflexivity.
  rewrite IH. reflexivity.
Qed.

(** As long as no particle is marked when it is visited, the loop does visit
    each particle once, in order. *)
Lemma advance_loop_no_removal (rnd : kicks) (ps : list object) :
  forall (done : list object) (w : Simulation.t) (k fuel : nat),
  Simulation.particles w = done ++ ps ->
  Forall (fun o => Particle.delete (body o) = false) ps ->
  (length ps < fuel)%nat ->
  Simulation.advance_loop fuel rnd (length done) w k
    = let! (ps', k') := visit_each w rnd k ps in
      Ok (Simulation.set_particles w (done ++ ps'), k').
Proof.
  induction ps as [|p ps IH]; intros done w k fuel Hps Hlive Hfuel;
    (destruct fuel as [|fuel]; [cbn in Hfuel; lia|]);
    cbn [Simulation.advance_loop visit_each].
  - rewrite Hps, lookup_ge_None_2 by (rewrite length_app; cbn; lia).
    cbn [bind]. rewrite <- Hps. destruct w; reflexivity.
  - rewrite Hps, list_lookup_middle by reflexivity.
    inversion Hlive as [|? ? Hp Hrest]; subst. rewrite Hp.
    destruct (object_advance (Simulation.dt w) rnd k p) as [p1 k1].
    destruct (Simulation.apply_forces w _) as [b| e |]; cbn [bind]; try reflexivity.
    set (p2 := with_body _ b).
    assert (Hins : <[length done := p2]> (done ++ p :: ps) = (done ++ [p2]) ++ ps).
    { rewrite insert_app_r_alt, Nat.sub_diag by lia. cbn.
      rewrite <- app_assoc. reflexivity. }
    rewrite Hins.
    replace (S (length done)) with (length (done ++ [p2]))
      by (rewrite length_app; cbn; lia).
    rewrite (IH (done ++ [p2]) _ k1 fuel); [| reflexivity | exact Hrest | cbn in Hfuel; lia].
    rewrite visit_each_set_particles.
    destruct (visit_each w rnd k1 ps) as [[ps' k']| e |]; cbn [bind]; try reflexivity.
    unfold Simulation.set_particles; cbn. rewrite <- app_assoc. reflexivity.
Qed.

(** C1 fails on the program.  A tick on a marked particle followed by a live
    one removes the first and, the list having shrunk under the iterator,
    never reaches the second: the live particle is in the list afterwards
    exactly as before, although advancing it would have moved it.  The same
    happens in [hw1_environment.advance].  When the follower is marked too,
    it is still in the list at the collision pass. *)
Theorem advance_skips_after_removal :
  Simulation.advance still w_dead_live 0
    = Ok (Simulation.mk [Plain p_live] 1 0.01 None, 0%nat) /\
  Particle.delete p_live = false /\
  Particle.advance 0.01 p_live <> p_live /\
  (exists w', hw1_environment.advance still w_dead_live_scalar 0 = Ok (w', 0%nat) /\
     Simulation.particles w' = [Plain p_live]) /\
  Simulation.advance still w_dead_dead 0
    = Ok (Simulation.mk [Plain p_dead'] 1 0.01 None, 0%nat) /\
  Particle.delete p_dead' = true.
Proof.
  split; [reflexivity|]. split; [reflexivity|].
  split; [discriminate|].
  split; [eexists; split; reflexivity|].
  split; reflexivity.
Qed.

(** For comparison: with the live particle first, the tick advances it and
    removes the marked one. *)
Lemma advance_live_then_dead :
  Simulation.advance still
      (Simulation.mk [Plain p_live; Plain p_dead] 2 0.01 None) 0
    = Ok (Simulation.mk
            [Plain (Simulation.handle_boundary_collisions (Particle.advance 0.01 p_live))]
            1 0.01 None, 0%nat).
Proof. reflexivity. Qed.

(** ** The collision pass *)

Lemma same_but_velocity_refl (o : object) : same_but_velocity o o.
Proof.
  unfold same_but_velocity.
  destruct o as [[r v rad m del]|c [[r v rad m del] food T sp mg tl fl]]; reflexivity.
Qed.

Lemma same_but_velocity_trans (o1 o2 o3 : object) :
  same_but_velocity o1 o2 -> same_but_velocity o2 o3 -> same_but_velocity o1 o3.
Proof.
  unfold same_but_velocity. intros H12 H23. rewrite H23 at 1. rewrite H12.
  destruct o1 as [[r v rad m del]|c [[r v rad m del] food T sp mg tl fl]]; reflexivity.
Qed.

Lemma same_but_velocity_set_v (o : object) (u : vec) :
  same_but_velocity o (with_body o (Particle.set_v (body o) u)).
Proof.
  unfold same_but_velocity.
  destruct o as [[r v rad m del]|c [[r v rad m del] food T sp mg tl fl]]; reflexivity.
Qed.

(** What [same_but_velocity] keeps. *)
Lemma same_but_velocity_body (o o' : object) :
  same_but_velocity o o' ->
  Particle.r (body o') = Particle.r (body o) /\
  Particle.radius (body o') = Particle.radius (body o) /\
  Particle.mass (body o') = Particle.mass (body o) /\
  Particle.delete (body o') = Particle.delete (body o).
Proof.
  unfold same_but_velocity. intros ->.
  destruct o as [[r v rad m del]|c [[r v rad m del] food T sp mg tl fl]];
    repeat split.
Qed.

(** An unchanged velocity then means an unchanged object. *)
Lemma same_but_velocity_eq (o o' : object) :
  same_but_velocity o o' -> Particle.v (body o') = Particle.v (body o) -> o' = o.
Proof.
  unfold same_but_velocity. intros H Hv. rewrite H, Hv.
  destruct o as [[r v rad m del]|c [[r v rad m del] food T sp mg tl fl]]; reflexivity.
Qed.

Lemma overlaps_same_but_velocity (o1 o2 o1' o2' : object) :
  same_but_velocity o1 o1' -> same_but_velocity o2 o2' ->
  Particle.overlaps (body o1') (body o2') = Particle.overlaps (body o1) (body o2).
Proof.
  intros H1 H2.
  destruct (same_but_velocity_body _ _ H1) as (Hr1 & Hrad1 & _).
  destruct (same_but_velocity_body _ _ H2) as (Hr2 & Hrad2 & _).
  unfold Particle.overlaps. rewrite Hr1, Hr2, Hrad1, Hrad2. reflexivity.
Qed.

Lemma change_velocities_sets_v (p1 p2 q1 q2 : Particle.t) :
  Simulation.change_velocities p1 p2 = Ok (q1, q2) ->
  q1 = Particle.set_v p1 (Particle.v q1) /\ q2 = Particle.set_v p2 (Particle.v q2).
Proof.
  unfold Simulation.change_velocities.
  destruct (Qeq_bool _ 0); [discriminate|].
  intros H. injection H as <- <-. split; reflexivity.
Qed.

Lemma velocities_apart_touched (ps ps' : list object) (pairs : list (nat * nat)) (k : nat) :
  velocities_apart ps ps' -> touched ps' pairs k -> touched ps pairs k.
Proof.
  intros [Hlen Hslots] (i & j & oi' & oj' & Hin & Hk & Hi & Hj & Hov).
  assert (Hsome : forall m o', ps' !! m = Some o' ->
            exists o, ps !! m = Some o /\ same_but_velocity o o').
  { intros m o' Hm. pose proof (lookup_lt_Some _ _ _ Hm) as Hlt.
    rewrite Hlen in Hlt. destruct (lookup_lt_is_Some_2 ps m Hlt) as [o Ho].
    destruct (Hslots _ _ Ho) as (o'' & Ho'' & Hsame).
    rewrite Hm in Ho''. injection Ho'' as <-. eauto. }
  destruct (Hsome _ _ Hi) as (oi & Hoi & Hsi).
  destruct (Hsome _ _ Hj) as (oj & Hoj & Hsj).
  exists i, j, oi, oj. repeat split; try assumption.
  rewrite <- (overlaps_same_but_velocity _ _ _ _ Hsi Hsj). exact Hov.
Qed.

(** One resolved pair. *)
Lemma velocities_apart_step (ps : list object) (i j : nat) (oi oj : object) (u1 u2 : vec) :
  ps !! i = Some oi -> ps !! j = Some oj ->
  let ps1 := <[j := with_body oj (Particle.set_v (body oj) u2)]>
               (<[i := with_body oi (Particle.set_v (body oi) u1)]> ps) in
  velocities_apart ps ps1 /\
  (forall k, k <> i -> k <> j -> ps1 !! k = ps !! k).
Proof.
  intros Hi Hj ps1. split; [split|].
  - unfold ps1. rewrite !length_insert. reflexivity.
  - intros k o Hk. unfold ps1.
    destruct (decide (k = j)) as [->|Hkj].
    + rewrite list_lookup_insert_eq
        by (rewrite length_insert; eapply lookup_lt_Some; eassumption).
      rewrite Hj in Hk. injection Hk as <-.
      eexists. split; [reflexivity | apply same_but_velocity_set_v].
    + rewrite list_lookup_insert_ne by congruence.
      destruct (decide (k = i)) as [->|Hki].
      * rewrite list_lookup_insert_eq by (eapply lookup_lt_Some; eassumption).
        rewrite Hi in Hk. injection Hk as <-.
        eexists. split; [reflexivity | apply same_but_velocity_set_v].
      * rewrite list_lookup_insert_ne by congruence.
        exists o. split; [exact Hk | apply same_but_velocity_refl].
  - intros k Hki Hkj. unfold ps1. rewrite !list_lookup_insert_ne by congruence.
    reflexivity.
Qed.

Lemma touched_cons (ps : list object) (pr : nat * nat) (pairs : list (nat * nat)) (k : nat) :
  touched ps pairs k -> touched ps (pr :: pairs) k.
Proof.
  intros (i & j & oi & oj & Hin & H). exists i, j, oi, oj.
  split; [right; exact Hin | exact H].
Qed.

(** The frame of the loop of [handle_collisions]. *)
Lemma collide_frame (pairs : list (nat * nat)) :
  forall ps ps', Simulation.collide pairs ps = Ok ps' ->
  length ps' = length ps /\
  forall k o, ps !! k = Some o ->
    exists o', ps' !! k = Some o' /\ same_but_velocity o o' /\
               (~ touched ps pairs k -> o' = o).
Proof.
  induction pairs as [|[i j] pairs IH]; intros ps ps' H; cbn [Simulation.collide] in H.
  - injection H as <-. split; [reflexivity|]. intros k o Hk.
    exists o. split; [exact Hk|]. split; [apply same_but_velocity_refl | reflexivity].
  - destruct (ps !! i) as [oi|] eqn:Hi; [|discriminate H].
    destruct (ps !! j) as [oj|] eqn:Hj; [|discriminate H].
    destruct (Particle.overlaps (body oi) (body oj)) eqn:Hov.
    + destruct (Simulation.change_velocities (body oi) (body oj))
        as [[q1 q2]| e |] eqn:Hcv; cbn [bind] in H; try discriminate H.
      destruct (change_velocities_sets_v _ _ _ _ Hcv) as [Hq1 Hq2].
      rewrite Hq1, Hq2 in H.
      destruct (velocities_apart_step ps i j oi oj (Particle.v q1) (Particle.v q2) Hi Hj)
        as [Hapart Hother].
      cbn zeta in Hapart, Hother.
      destruct (IH _ _ H) as [Hlen Hslots].
      destruct Hapart as [Hlen1 Hslots1].
      split; [congruence|].
      intros k o Hk.
      destruct (Hslots1 _ _ Hk) as (o1 & Hk1 & Hs1).
      destruct (Hslots _ _ Hk1) as (o' & Hk' & Hs' & Hun).
      exists o'. split; [exact Hk'|].
      split; [eapply same_but_velocity_trans; eassumption|].
      intros Hnot.
      assert (Hki : k <> i).
      { intros ->. apply Hnot. exists i, j, oi, oj.
        repeat split; try assumption; [left | left]; reflexivity. }
      assert (Hkj : k <> j).
      { intros ->. apply Hnot. exists i, j, oi, oj.
        repeat split; try assumption; [left | right]; reflexivity. }
      rewrite (Hother k Hki Hkj), Hk in Hk1. injection Hk1 as <-.
      apply Hun. intros Ht. apply Hnot. apply touched_cons.
      eapply velocities_apart_touched; [|exact Ht].
      split; assumption.
    + destruct (IH _ _ H) as [Hlen Hslots]. split; [exact Hlen|].
      intros k o Hk. destruct (Hslots _ _ Hk) as (o' & Hk' & Hs' & Hun).
      exists o'. split; [exact Hk'|]. split; [exact Hs'|].
      intros Hnot. apply Hun. intros Ht. apply Hnot. apply touched_cons. exact Ht.
Qed.

Lemma elem_of_combinations2 (m i j : nat) :
  (i, j) ∈ combinations2 m <-> (i < j)%nat /\ (j < m)%nat.
Proof.
  unfold combinations2. rewrite list_elem_of_In, in_flat_map. split.
  - intros (a & Ha & Hin). apply in_map_iff in Hin as (b & Hb & Hin).
    injection Hb as -> ->. apply in_seq in Ha, Hin. lia.
  - intros [Hij Hjm]. exists i. split; [apply in_seq; lia|].
    apply in_map_iff. exists j. split; [reflexivity | apply in_seq; lia].
Qed.

(** Overlapping particles built by the constructors have masses that do not
    sum to zero. *)
Lemma overlap_mass_nonzero (o1 o2 : object) :
  mass_from_radius o1 -> mass_from_radius o2 ->
  Particle.overlaps (body o1) (body o2) = true ->
  ~ Particle.mass (body o1) + Particle.mass (body o2) == 0.
Proof.
  unfold mass_from_radius, Particle.overlaps, hypot_lt. intros H1 H2 Hov HM.
  destruct (norm2 _); [|discriminate Hov].
  apply andb_true_iff in Hov as [Hs _]. apply Qltb_lt in Hs.
  rewrite H1, H2 in HM. apply sum_squares_zero in HM as [Ha Hb]. lra.
Qed.

Lemma mass_from_radius_same (o o' : object) :
  same_but_velocity o o' -> mass_from_radius o -> mass_from_radius o'.
Proof.
  intros Hs. destruct (same_but_velocity_body _ _ Hs) as (_ & Hrad & Hm & _).
  unfold mass_from_radius. rewrite Hrad, Hm. trivial.
Qed.

(** The loop raises nothing when the indices are in range and masses come
    from radii. *)
Lemma collide_ok (pairs : list (nat * nat)) :
  forall ps,
  (forall i j, (i, j) ∈ pairs -> (i < length ps)%nat /\ (j < length ps)%nat) ->
  Forall mass_from_radius ps ->
  exists ps', Simulation.collide pairs ps = Ok ps'.
Proof.
  induction pairs as [|[i j] pairs IH]; intros ps Hrange Hmass; cbn [Simulation.collide].
  - eauto.
  - destruct (Hrange i j ltac:(left)) as [Hi Hj].
    destruct (lookup_lt_is_Some_2 ps i Hi) as [oi Hoi].
    destruct (lookup_lt_is_Some_2 ps j Hj) as [oj Hoj].
    rewrite Hoi, Hoj.
    assert (Hrange' : forall ps1 : list object, length ps1 = length ps ->
              forall i0 j0, (i0, j0) ∈ pairs ->
              (i0 < length ps1)%nat /\ (j0 < length ps1)%nat).
    { intros ps1 Hlen i0 j0 Hin. rewrite Hlen. apply Hrange. right. exact Hin. }
    destruct (Particle.overlaps (body oi) (body oj)) eqn:Hov.
    + pose proof (Forall_lookup_1 _ _ _ _ Hmass Hoi) as Hmi.
      pose proof (Forall_lookup_1 _ _ _ _ Hmass Hoj) as Hmj.
      pose proof (overlap_mass_nonzero _ _ Hmi Hmj Hov) as HM.
      unfold Simulation.change_velocities.
      rewrite (Qeq_bool_false _ _ HM). cbn [bind].
      apply IH.
      * apply Hrange'. rewrite !length_insert. reflexivity.
      * apply Forall_insert; [apply Forall_insert; [exact Hmass|]|].
        -- eapply mass_from_radius_same; [apply same_but_velocity_set_v | exact Hmi].
        -- eapply mass_from_radius_same; [apply same_but_velocity_set_v | exact Hmj].
    + apply IH; [apply Hrange'; reflexivity | exact Hmass].
Qed.

(** C9.  A collision pass that returns leaves the count, the time step, the
    field and the length of the list as they were, and every object of the
    list as it was up to the velocity: position, radius, mass, deleted flag,
    class and agent state are unchanged; an object that belongs to no
    overlapping pair is unchanged altogether.  The pass does return when the
    count does not exceed the length of the list and the masses are the
    squared radii. *)
Theorem handle_collisions_frame (w : Simulation.t) :
  (forall w', Simulation.handle_collisions w = Ok w' ->
     Simulation.n w' = Simulation.n w /\
     Simulation.dt w' = Simulation.dt w /\
     Simulation.srf w' = Simulation.srf w /\
     length (Simulation.particles w') = length (Simulation.particles w) /\
     forall k o, Simulation.particles w !! k = Some o ->
       exists o', Simulation.particles w' !! k = Some o' /\
         same_but_velocity o o' /\
         Particle.r (body o') = Particle.r (body o) /\
         Particle.radius (body o') = Particle.radius (body o) /\
         Particle.mass (body o') = Particle.mass (body o) /\
         Particle.delete (body o') = Particle.delete (body o) /\
         (~ in_overlapping_pair w k -> o' = o)) /\
  ((Z.to_nat (Simulation.n w) <= length (Simulation.particles w))%nat ->
   Forall mass_from_radius (Simulation.particles w) ->
   exists w', Simulation.handle_collisions w = Ok w').
Proof.
  unfold Simulation.handle_collisions. split.
  - intros w' H.
    destruct (Simulation.collide _ (Simulation.particles w)) as [ps'| e |] eqn:E;
      cbn [bind] in H; try discriminate H.
    injection H as <-. cbn.
    destruct (collide_frame _ _ _ E) as [Hlen Hslots].
    repeat (split; [reflexivity || exact Hlen|]).
    intros k o Hk. destruct (Hslots _ _ Hk) as (o' & Hk' & Hs & Hun).
    exists o'. split; [exact Hk'|]. split; [exact Hs|].
    destruct (same_but_velocity_body _ _ Hs) as (Hr & Hrad & Hm & Hd).
    repeat (split; [assumption|]).
    intros Hnot. apply Hun. intros (i & j & oi & oj & Hin & Hkk & Hi & Hj & Hov).
    apply Hnot. apply elem_of_combinations2 in Hin as [Hij Hjn].
    exists i, j, oi, oj. repeat split; assumption.
  - intros Hn Hmass.
    destruct (collide_ok (combinations2 (Z.to_nat (Simulation.n w)))
                (Simulation.particles w)) as [ps' E].
    + intros i j Hin. apply elem_of_combinations2 in Hin. lia.
    + exact Hmass.
    + rewrite E. cbn [bind]. eauto.
Qed.

Lemma handle_collisions_frame_witness :
  exists w', Simulation.handle_collisions w_head_on = Ok w' /\
    Simulation.particles w' !! 2%nat = Some (Plain p_far) /\
    Simulation.particles w' !! 3%nat
      = Some (Agent Chomeostasis_agent (homeostasis_agent.init 100)) /\
    exists o', Simulation.particles w' !! 0%nat = Some o' /\
      Particle.r (body o') = Particle.r p_left /\
      Particle.v (body o') <> Particle.v p_left.
Proof.
  destruct (handle_collisions_frame w_head_on) as [Hframe Hok].
  destruct Hok as [w' E].
  { vm_compute. lia. }
  { repeat constructor. }
  exists w'. split; [exact E|].
  assert (E' := E). vm_compute in E'. injection E' as <-.
  split; [reflexivity|]. split; [reflexivity|].
  eexists. split; [reflexivity|]. split; [reflexivity | discriminate].
Defined.

(** * Further facts *)

(** ** Overlap *)

Lemma Qltb_compat (x x' y y' : Q) : x == x' -> y == y' -> Qltb x y = Qltb x' y'.
Proof.
  intros Hx Hy.
  destruct (Qltb x y) eqn:E, (Qltb x' y') eqn:E'; qprop; try reflexivity;
    exfalso; lra.
Qed.

(** X1.  [overlaps] is symmetric, NaN positions included. *)
Theorem overlaps_sym (p q : Particle.t) :
  Particle.overlaps p q = Particle.overlaps q p.
Proof.
  destruct p as [[[x1|] [y1|]] v1 rad1 m1 del1], q as [[[x2|] [y2|]] v2 rad2 m2 del2];
    unfold Particle.overlaps, hypot_lt; cbn; try reflexivity.
  f_equal; apply Qltb_compat; lra || ring.
Qed.

(** ** Walls, again *)


Lemma handle_boundary_collisions_clear (p : Particle.t) :
  axis_clear (Particle.radius p) (Particle.x p) ->
  axis_clear (Particle.radius p) (Particle.y p) ->
  Simulation.handle_boundary_collisions p = p.
Proof.
  destruct p as [[x y] [a b] rad m del]. unfold axis_clear; cbn.
  intros [Hx1 Hx2] [Hy1 Hy2].
  unfold Simulation.handle_boundary_collisions; cbn.
  rewrite Hx1; cbn. rewrite Hx2; cbn. rewrite Hy1; cbn. rewrite Hy2. reflexivity.
Qed.

Lemma inside_axis_clear (p : Particle.t) :
  inside_unit_square p ->
  axis_clear (Particle.radius p) (Particle.x p) /\
  axis_clear (Particle.radius p) (Particle.y p).
Proof.
  destruct p as [[[x|] [y|]] v rad m del]; unfold inside_unit_square, axis_clear; cbn;
    try tauto.
  intros (H1 & H2 & H3 & H4). rewrite !Qltb_ge. repeat split; lra.
Qed.



(** X3.  A particle whose disc is in the unit square is left as it is. *)
Theorem handle_boundary_collisions_noop (p : Particle.t) :
  inside_unit_square p -> Simulation.handle_boundary_collisions p = p.
Proof.
  intros H. destruct (inside_axis_clear p H) as [Hx Hy].
  apply handle_boundary_collisions_clear; assumption.
Qed.

Lemma handle_boundary_collisions_noop_witness :
  Simulation.handle_boundary_collisions p_live = p_live.
Proof.
  apply handle_boundary_collisions_noop.
  vm_compute. repeat split; discriminate.
Defined.

(** X5.  The wall handling never speeds a particle up: each finite velocity
    component stays finite and its square does not grow, for every radius. *)
Theorem handle_boundary_collisions_slows (p : Particle.t) (a b : Q) :
  Particle.v p = (Fin a, Fin b) ->
  exists a' b',
    Particle.v (Simulation.handle_boundary_collisions p) = (Fin a', Fin b') /\
    a' * a' <= a * a /\ b' * b' <= b * b.
Proof.
  destruct p as [[x y] v rad m del]; cbn. intros ->.
  unfold Simulation.handle_boundary_collisions; cbn.
  repeat match goal with
  | |- context [if ?c then _ else _] => destruct c; cbn
  end;
  eexists _, _; (split; [reflexivity|]); split; nra.
Qed.

Lemma handle_boundary_collisions_slows_witness :
  exists a' b',
    Particle.v (Simulation.handle_boundary_collisions p_wide) = (Fin a', Fin b') /\
    a' * a' <= (-1) * (-1) /\ b' * b' <= 0 * 0.
Proof.
  apply handle_boundary_collisions_slows. reflexivity.
Defined.

(** ** Elastic collisions, again *)

(** X6.  The outcome of [change_velocities] does not depend on the order of
    the two particles: called with the particles exchanged it returns the same
    two velocities. *)
Theorem change_velocities_sym (p1 p2 : Particle.t) :
  finite p1 -> finite p2 ->
  ~ centres_coincide p1 p2 ->
  ~ Particle.mass p1 + Particle.mass p2 == 0 ->
  exists q1 q2 q1' q2',
    Simulation.change_velocities p1 p2 = Ok (q1, q2) /\
    Simulation.change_velocities p2 p1 = Ok (q2', q1') /\
    vec_eq (Particle.v q1') (Particle.v q1) /\
    vec_eq (Particle.v q2') (Particle.v q2) /\
    q1' = Particle.set_v p1 (Particle.v q1') /\
    q2' = Particle.set_v p2 (Particle.v q2').
Proof.
  destruct p1 as [[x1 y1] [a1 b1] rad1 m1 del1], p2 as [[x2 y2] [a2 b2] rad2 m2 del2].
  unfold finite, centres_coincide; cbn.
  intros (Hx1 & Hy1 & Ha1 & Hb1) (Hx2 & Hy2 & Ha2 & Hb2) Hdist HM.
  destruct x1 as [x1|], y1 as [y1|], a1 as [a1|], b1 as [b1|]; try contradiction.
  destruct x2 as [x2|], y2 as [y2|], a2 as [a2|], b2 as [b2|]; try contradiction.
  cbn in Hdist.
  assert (Hd : ~ (x1 - x2) * (x1 - x2) + (y1 - y2) * (y1 - y2) == 0).
  { intros H. apply sum_squares_zero in H as [Hx Hy]. apply Hdist. split; lra. }
  assert (Hd' : ~ (x2 - x1) * (x2 - x1) + (y2 - y1) * (y2 - y1) == 0).
  { intros H. apply Hd. lra. }
  assert (HM' : ~ m2 + m1 == 0) by (intros H; apply HM; lra).
  unfold Simulation.change_velocities; cbn.
  rewrite (Qeq_bool_false _ _ HM), (Qeq_bool_false _ _ Hd),
          (Qeq_bool_false _ _ HM'), (Qeq_bool_false _ _ Hd').
  eexists _, _, _, _. split; [reflexivity|]. split; [reflexivity|].
  unfold vec_eq; cbn.
  repeat split; try reflexivity; field; auto.
Qed.

Lemma change_velocities_sym_witness :
  exists q1 q2 q1' q2',
    Simulation.change_velocities p_left p_right = Ok (q1, q2) /\
    Simulation.change_velocities p_right p_left = Ok (q2', q1') /\
    vec_eq (Particle.v q1') (Particle.v q1) /\
    vec_eq (Particle.v q2') (Particle.v q2) /\
    q1' = Particle.set_v p_left (Particle.v q1') /\
    q2' = Particle.set_v p_right (Particle.v q2').
Proof.
  apply change_velocities_sym.
  - vm_compute. tauto.
  - vm_compute. tauto.
  - vm_compute. intros [H _]. discriminate H.
  - vm_compute. discriminate.
Defined.

(** X7.  A resolved collision reverses the relative velocity along the line
    of centres and keeps it across that line. *)
Theorem change_velocities_reflects (p1 p2 : Particle.t) :
  finite p1 -> finite p2 ->
  ~ centres_coincide p1 p2 ->
  ~ Particle.mass p1 + Particle.mass p2 == 0 ->
  exists q1 q2,
    Simulation.change_velocities p1 p2 = Ok (q1, q2) /\
    let dr := vsub (Particle.r p1) (Particle.r p2) in
    num_eq (dot (vsub (Particle.v q1) (Particle.v q2)) dr)
           (nopp (dot (vsub (Particle.v p1) (Particle.v p2)) dr)) /\
    num_eq (dot (vsub (Particle.v q1) (Particle.v q2)) (perp dr))
           (dot (vsub (Particle.v p1) (Particle.v p2)) (perp dr)).
Proof.
  destruct p1 as [[x1 y1] [a1 b1] rad1 m1 del1], p2 as [[x2 y2] [a2 b2] rad2 m2 del2].
  unfold finite, centres_coincide; cbn.
  intros (Hx1 & Hy1 & Ha1 & Hb1) (Hx2 & Hy2 & Ha2 & Hb2) Hdist HM.
  destruct x1 as [x1|], y1 as [y1|], a1 as [a1|], b1 as [b1|]; try contradiction.
  destruct x2 as [x2|], y2 as [y2|], a2 as [a2|], b2 as [b2|]; try contradiction.
  cbn in Hdist.
  assert (Hd : ~ (x1 - x2) * (x1 - x2) + (y1 - y2) * (y1 - y2) == 0).
  { intros H. apply sum_squares_zero in H as [Hx Hy]. apply Hdist. split; lra. }
  unfold Simulation.change_velocities; cbn.
  rewrite (Qeq_bool_false _ _ HM), (Qeq_bool_false _ _ Hd).
  eexists _, _. split; [reflexivity|].
  unfold nopp, perp; cbn. split; field; auto.
Qed.

Lemma change_velocities_reflects_witness :
  exists q1 q2,
    Simulation.change_velocities p_left p_right = Ok (q1, q2) /\
    let dr := vsub (Particle.r p_left) (Particle.r p_right) in
    num_eq (dot (vsub (Particle.v q1) (Particle.v q2)) dr)
           (nopp (dot (vsub (Particle.v p_left) (Particle.v p_right)) dr)) /\
    num_eq (dot (vsub (Particle.v q1) (Particle.v q2)) (perp dr))
           (dot (vsub (Particle.v p_left) (Particle.v p_right)) (perp dr)).
Proof.
  apply change_velocities_reflects.
  - vm_compute. tauto.
  - vm_compute. tauto.
  - vm_compute. intros [H _]. discriminate H.
  - vm_compute. discriminate.
Defined.

(** X8.  Resolving the same pair twice gives the velocities back: the
    second call undoes the first. *)
Theorem change_velocities_involutive (p1 p2 : Particle.t) :
  finite p1 -> finite p2 ->
  ~ centres_coincide p1 p2 ->
  ~ Particle.mass p1 + Particle.mass p2 == 0 ->
  exists q1 q2 s1 s2,
    Simulation.change_velocities p1 p2 = Ok (q1, q2) /\
    Simulation.change_velocities q1 q2 = Ok (s1, s2) /\
    vec_eq (Particle.v s1) (Particle.v p1) /\
    vec_eq (Particle.v s2) (Particle.v p2) /\
    s1 = Particle.set_v p1 (Particle.v s1) /\
    s2 = Particle.set_v p2 (Particle.v s2).
Proof.
  destruct p1 as [[x1 y1] [a1 b1] rad1 m1 del1], p2 as [[x2 y2] [a2 b2] rad2 m2 del2].
  unfold finite, centres_coincide; cbn.
  intros (Hx1 & Hy1 & Ha1 & Hb1) (Hx2 & Hy2 & Ha2 & Hb2) Hdist HM.
  destruct x1 as [x1|], y1 as [y1|], a1 as [a1|], b1 as [b1|]; try contradiction.
  destruct x2 as [x2|], y2 as [y2|], a2 as [a2|], b2 as [b2|]; try contradiction.
  cbn in Hdist.
  assert (Hd : ~ (x1 - x2) * (x1 - x2) + (y1 - y2) * (y1 - y2) == 0).
  { intros H. apply sum_squares_zero in H as [Hx Hy]. apply Hdist. split; lra. }
  eexists _, _, _, _. split.
  { unfold Simulation.change_velocities; cbn.
    rewrite (Qeq_bool_false _ _ HM), (Qeq_bool_false _ _ Hd). reflexivity. }
  split.
  { unfold Simulation.change_velocities; cbn.
    rewrite (Qeq_bool_false _ _ HM), (Qeq_bool_false _ _ Hd). reflexivity. }
  unfold vec_eq; cbn.
  repeat split; try reflexivity; field; auto.
Qed.

Lemma change_velocities_involutive_witness :
  exists q1 q2 s1 s2,
    Simulation.change_velocities p_left p_right = Ok (q1, q2) /\
    Simulation.change_velocities q1 q2 = Ok (s1, s2) /\
    vec_eq (Particle.v s1) (Particle.v p_left) /\
    vec_eq (Particle.v s2) (Particle.v p_right) /\
    s1 = Particle.set_v p_left (Particle.v s1) /\
    s2 = Particle.set_v p_right (Particle.v s2).
Proof.
  apply change_velocities_involutive.
  - vm_compute. tauto.
  - vm_compute. tauto.
  - vm_compute. intros [H _]. discriminate H.
  - vm_compute. discriminate.
Defined.

(** ** The collision pass, again *)

Lemma collide_no_overlap (pairs : list (nat * nat)) (ps : list object) :
  (forall i j, (i, j) ∈ pairs ->
     exists oi oj, ps !! i = Some oi /\ ps !! j = Some oj /\
                   Particle.overlaps (body oi) (body oj) = false) ->
  Simulation.collide pairs ps = Ok ps.
Proof.
  induction pairs as [|[i j] pairs IH]; intros H; cbn [Simulation.collide];
    [reflexivity|].
  destruct (H i j ltac:(left)) as (oi & oj & -> & -> & ->).
  apply IH. intros i' j' Hin. apply H. right. exact Hin.
Qed.

(** X9.  A pass over a simulation in which no two of the first [n] particles
    overlap changes nothing. *)
Theorem handle_collisions_no_overlap (w : Simulation.t) :
  (Z.to_nat (Simulation.n w) <= length (Simulation.particles w))%nat ->
  (forall i j oi oj,
     (i < j)%nat -> (j < Z.to_nat (Simulation.n w))%nat ->
     Simulation.particles w !! i = Some oi ->
     Simulation.particles w !! j = Some oj ->
     Particle.overlaps (body oi) (body oj) = false) ->
  Simulation.handle_collisions w = Ok w.
Proof.
  intros Hn Hfree. unfold Simulation.handle_collisions.
  rewrite collide_no_overlap.
  - cbn [bind]. destruct w. reflexivity.
  - intros i j Hin. apply elem_of_combinations2 in Hin as [Hij Hjn].
    destruct (lookup_lt_is_Some_2 (Simulation.particles w) i ltac:(lia)) as [oi Hoi].
    destruct (lookup_lt_is_Some_2 (Simulation.particles w) j ltac:(lia)) as [oj Hoj].
    exists oi, oj. split; [exact Hoi|]. split; [exact Hoj|].
    apply (Hfree i j oi oj); assumption.
Qed.

Lemma handle_collisions_no_overlap_witness :
  Simulation.handle_collisions
    (Simulation.mk [Plain p_left; Plain p_far] 2 0.01 None)
  = Ok (Simulation.mk [Plain p_left; Plain p_far] 2 0.01 None).
Proof.
  apply handle_collisions_no_overlap.
  - vm_compute. lia.
  - intros i j oi oj Hij Hj Hi Hj'. cbn in Hj.
    assert (i = 0%nat) by lia. assert (j = 1%nat) by lia. subst.
    cbn in Hi, Hj'. injection Hi as <-. injection Hj' as <-. reflexivity.
Defined.

(** X10.  The pass reads the first [n] slots only: what the list holds from
    index [n] on is never changed, overlapping or not. *)
Theorem handle_collisions_beyond_count (w w' : Simulation.t) (k : nat) :
  Simulation.handle_collisions w = Ok w' ->
  (Z.to_nat (Simulation.n w) <= k)%nat ->
  Simulation.particles w' !! k = Simulation.particles w !! k.
Proof.
  unfold Simulation.handle_collisions. intros H Hk.
  destruct (Simulation.collide _ (Simulation.particles w)) as [ps'| e |] eqn:E;
    cbn [bind] in H; try discriminate H.
  injection H as <-. cbn.
  destruct (collide_frame _ _ _ E) as [Hlen Hslots].
  destruct (Simulation.particles w !! k) as [o|] eqn:Ho.
  - destruct (Hslots _ _ Ho) as (o' & Ho' & _ & Hun). rewrite Ho'. f_equal.
    apply Hun. intros (i & j & oi & oj & Hin & Hkk & _).
    apply elem_of_combinations2 in Hin. lia.
  - apply lookup_ge_None. rewrite Hlen. apply lookup_ge_None. exact Ho.
Qed.

Lemma handle_collisions_beyond_count_witness :
  Particle.overlaps p_left p_right = true /\
  exists w', Simulation.handle_collisions w_count_behind = Ok w' /\
    Simulation.particles w' !! 2%nat = Some (Plain p_right).
Proof.
  split; [reflexivity|].
  eexists. split; [reflexivity|].
  apply (handle_collisions_beyond_count w_count_behind _ 2 eq_refl).
  vm_compute. lia.
Defined.

Lemma collide_app (a b : list (nat * nat)) :
  forall ps,
  Simulation.collide (a ++ b) ps
    = let! ps' := Simulation.collide a ps in Simulation.collide b ps'.
Proof.
  induction a as [|[i j] a IH]; intros ps; cbn [app Simulation.collide bind];
    [reflexivity|].
  destruct (ps !! i) as [oi|]; [|reflexivity].
  destruct (ps !! j) as [oj|]; [|reflexivity].
  destruct (Particle.overlaps (body oi) (body oj)); [|apply IH].
  destruct (Simulation.change_velocities (body oi) (body oj)) as [[q1 q2]| e |];
    cbn [bind]; try reflexivity.
  apply IH.
Qed.

(** The pairs of [combinations2 m] up to the first one that reaches index
    [len]. *)
Lemma combinations2_split (m len : nat) :
  (1 <= len)%nat -> (len < m)%nat ->
  exists rest,
    combinations2 m = map (pair 0%nat) (seq 1 (len - 1)) ++ (0%nat, len) :: rest.
Proof.
  intros H1 Hm. unfold combinations2.
  destruct m as [|m]; [lia|]. cbn [seq flat_map].
  replace (S m - 1)%nat with ((len - 1) + S (m - len))%nat by lia.
  rewrite seq_app, map_app. replace (1 + (len - 1))%nat with len by lia.
  cbn [seq map]. rewrite <- app_assoc. cbn [app]. eauto.
Qed.

Lemma mass_from_radius_collide (pairs : list (nat * nat)) (ps ps' : list object) :
  Simulation.collide pairs ps = Ok ps' ->
  Forall mass_from_radius ps -> Forall mass_from_radius ps'.
Proof.
  intros H Hmass. destruct (collide_frame _ _ _ H) as [Hlen Hslots].
  apply Forall_lookup_2. intros k o' Ho'.
  pose proof (lookup_lt_Some _ _ _ Ho') as Hlt. rewrite Hlen in Hlt.
  destruct (lookup_lt_is_Some_2 ps k Hlt) as [o Ho].
  destruct (Hslots _ _ Ho) as (o'' & Ho'' & Hs & _).
  rewrite Ho' in Ho''. injection Ho'' as <-.
  eapply mass_from_radius_same; [exact Hs|].
  eapply Forall_lookup_1; eassumption.
Qed.

(** X11.  When masses are squared radii, the pass returns if the count [n]
    is at most the length of the list, or at most 1, and raises IndexError
    otherwise; it raises nothing else. *)
Theorem handle_collisions_outcome (w : Simulation.t) :
  Forall mass_from_radius (Simulation.particles w) ->
  (((Z.to_nat (Simulation.n w) <= length (Simulation.particles w))%nat \/
    (Z.to_nat (Simulation.n w) <= 1)%nat) ->
   exists w', Simulation.handle_collisions w = Ok w') /\
  ((length (Simulation.particles w) < Z.to_nat (Simulation.n w))%nat ->
   (2 <= Z.to_nat (Simulation.n w))%nat ->
   Simulation.handle_collisions w = Raise IndexError).
Proof.
  intros Hmass. unfold Simulation.handle_collisions.
  set (m := Z.to_nat (Simulation.n w)). set (ps := Simulation.particles w) in *.
  split.
  - intros Hm.
    destruct (collide_ok (combinations2 m) ps) as [ps' E]; [| exact Hmass |].
    + intros i j Hin. apply elem_of_combinations2 in Hin.
      destruct Hm; lia.
    + rewrite E. cbn [bind]. eauto.
  - intros Hlen Hm.
    destruct (decide (length ps = 0%nat)) as [H0|H0].
    + destruct m as [|[|m]]; try lia.
      apply length_zero_iff_nil in H0. rewrite H0. reflexivity.
    + destruct (combinations2_split m (length ps) ltac:(lia) Hlen) as [rest ->].
      rewrite collide_app.
      destruct (collide_ok (map (pair 0%nat) (seq 1 (length ps - 1))) ps) as [ps1 E];
        [| exact Hmass |].
      * intros i j Hin. apply list_elem_of_In, in_map_iff in Hin as (b & Hb & Hin).
        injection Hb as <- <-. apply in_seq in Hin. lia.
      * rewrite E. cbn [bind Simulation.collide].
        destruct (collide_frame _ _ _ E) as [Hl _].
        destruct (lookup_lt_is_Some_2 ps1 0%nat ltac:(lia)) as [o0 ->].
        rewrite (lookup_ge_None_2 ps1 (length ps)) by lia. reflexivity.
Qed.

Lemma handle_collisions_outcome_witness :
  (exists w', Simulation.handle_collisions w_head_on = Ok w') /\
  Simulation.handle_collisions w_count_ahead = Raise IndexError.
Proof.
  split.
  - apply (handle_collisions_outcome w_head_on).
    + repeat constructor.
    + left. vm_compute. lia.
  - apply (handle_collisions_outcome w_count_ahead).
    + repeat constructor.
    + vm_compute. lia.
    + vm_compute. lia.
Defined.

(** ** Construction *)

Lemma overlaps_comm (p q : Particle.t) :
  Particle.overlaps p q = Particle.overlaps q p.
Proof.
  destruct p as [[[x1|] [y1|]] v1 rad1 m1 del1], q as [[[x2|] [y2|]] v2 rad2 m2 del2];
    unfold Particle.overlaps, hypot_lt; cbn; try reflexivity.
  f_equal; apply Qltb_compat; lra || ring.
Qed.

Lemma place_particle_accepted (rad : Q) (d : draw) (ps ps' : list object) :
  Simulation.place_particle rad d ps = (true, ps') ->
  ps' = ps ++ [Plain (Simulation.candidate rad d)] /\
  forall p2, p2 ∈ ps ->
    Particle.overlaps (body p2) (Simulation.candidate rad d) = false.
Proof.
  unfold Simulation.place_particle.
  destruct (existsb _ ps) eqn:E; [discriminate|].
  intros H. injection H as <-. split; [reflexivity|].
  intros p2 Hin. apply not_true_iff_false. intros Hov.
  apply not_true_iff_false in E. apply E. apply existsb_exists.
  exists p2. split; [apply list_elem_of_In; exact Hin | exact Hov].
Qed.

Lemma pairwise_apart_snoc (ps : list object) (c : Particle.t) :
  pairwise_apart ps ->
  (forall p2, p2 ∈ ps -> Particle.overlaps (body p2) c = false) ->
  pairwise_apart (ps ++ [Plain c]).
Proof.
  intros Hps Hc i j oi oj Hij Hi Hj.
  assert (Hcase : forall k o, (ps ++ [Plain c]) !! k = Some o ->
            (k < length ps)%nat /\ ps !! k = Some o \/
            k = length ps /\ o = Plain c).
  { intros k o Hk. destruct (decide (k < length ps)%nat) as [Hlt|Hge].
    - left. rewrite lookup_app_l in Hk by exact Hlt. auto.
    - right. rewrite lookup_app_r in Hk by lia.
      destruct (k - length ps)%nat as [|m] eqn:Em; cbn in Hk; [|discriminate Hk].
      injection Hk as <-. split; [lia | reflexivity]. }
  destruct (Hcase _ _ Hi) as [[Hil Hi']|[-> ->]],
           (Hcase _ _ Hj) as [[Hjl Hj']|[-> ->]].
  - eapply Hps; eassumption.
  - apply Hc. eapply list_elem_of_lookup_2. exact Hi'.
  - cbn [body]. rewrite overlaps_comm. apply Hc.
    eapply list_elem_of_lookup_2. exact Hj'.
  - congruence.
Qed.

Lemma place_retry_ok (fuel : nat) (ds : draws) (rad : Q) :
  forall k ps ps' k',
  Simulation.place_retry fuel ds rad k ps = Ok (ps', k') ->
  exists o, ps' = ps ++ [o] /\ placed ds rad o /\
            (pairwise_apart ps -> pairwise_apart ps').
Proof.
  induction fuel as [|fuel IH]; intros k ps ps' k' H; cbn [Simulation.place_retry] in H;
    [discriminate H|].
  destruct (Simulation.place_particle rad (ds k) ps) as [[|] ps1] eqn:E.
  - injection H as <- <-.
    apply place_particle_accepted in E as [-> Hfree].
    eexists. split; [reflexivity|]. split; [exists k; reflexivity|].
    intros Hps. apply pairwise_apart_snoc; assumption.
  - destruct (place_particle_cases rad (ds k) ps) as [E'|E']; rewrite E' in E;
      [|discriminate E].
    injection E as <-. eapply IH. exact H.
Qed.

Lemma place_each_ok (fuel : nat) (ds : draws) (rads : list Q) :
  forall k ps ps' k',
  Simulation.place_each fuel ds rads k ps = Ok (ps', k') ->
  exists new, ps' = ps ++ new /\ Forall2 (placed ds) rads new /\
              (pairwise_apart ps -> pairwise_apart ps').
Proof.
  induction rads as [|rad rads IH]; intros k ps ps' k' H; cbn [Simulation.place_each] in H.
  - injection H as <- <-. exists []. rewrite app_nil_r.
    split; [reflexivity|]. split; [constructor | auto].
  - destruct (Simulation.place_retry fuel ds rad k ps) as [[ps1 k1]| e |] eqn:E;
      cbn [bind] in H; try discriminate H.
    destruct (place_retry_ok _ _ _ _ _ _ _ E) as (o & -> & Ho & Hap1).
    destruct (IH _ _ _ _ H) as (new & -> & Hnew & Hap2).
    exists (o :: new). rewrite <- app_assoc. split; [reflexivity|].
    split; [constructor; assumption |].
    intros Hps. rewrite (app_assoc ps [o] new). apply Hap2, Hap1, Hps.
Qed.

(** What the constructor returns, when it returns. *)
Lemma init_ok (fuel : nat) (ds : draws) (n : Z) (radius : radius_arg)
    (srf : option field) (w : Simulation.t) :
  Simulation.init fuel ds n radius srf = Ok w ->
  Simulation.n w = n /\ Simulation.dt w = 0.01 /\ Simulation.srf w = srf /\
  length (requested_radii n radius) = Z.to_nat n /\
  Forall2 (placed ds) (requested_radii n radius) (Simulation.particles w) /\
  pairwise_apart (Simulation.particles w).
Proof.
  unfold Simulation.init, Simulation.init_particles. intros H.
  assert (Hlen : forall rads,
            match radius with
            | Sequence rads0 =>
                if decide (n = Z.of_nat (length rads0)) then Ok rads0
                else Raise AssertionError
            | Scalar rad => Ok (replicate (Z.to_nat n) rad)
            end = Ok rads ->
            rads = requested_radii n radius /\ length rads = Z.to_nat n).
  { intros rads. destruct radius as [rad|rads0]; cbn.
    - intros E. injection E as <-. split; [reflexivity | apply length_replicate].
    - destruct (decide (n = Z.of_nat (length rads0))) as [->|]; [|discriminate].
      intros E. injection E as <-. split; [reflexivity | lia]. }
  destruct (match radius with Scalar _ => _ | Sequence _ => _ end)
    as [rads| e |] eqn:E; cbn [bind] in H; try discriminate H.
  destruct (Hlen _ eq_refl) as [-> Hl].
  destruct (Simulation.place_each fuel ds _ 0 []) as [[ps k]| e |] eqn:P;
    cbn [bind] in H; try discriminate H.
  injection H as <-. cbn.
  destruct (place_each_ok _ _ _ _ _ _ _ P) as (new & -> & Hnew & Hap).
  repeat split; try assumption.
  apply Hap. intros i j oi oj _ Hi. discriminate Hi.
Qed.

Lemma placed_facts (ds : draws) (rad : Q) (o : object) :
  placed ds rad o ->
  Particle.radius (body o) = rad /\
  Particle.delete (body o) = false /\
  mass_from_radius o.
Proof.
  intros [k ->]. unfold mass_from_radius; cbn. repeat split; reflexivity.
Qed.

(** X12.  A constructor that returns has placed exactly one plain particle
    per requested radius, in order and with that radius, unmarked and with the
    squared radius as mass; the list has [max n 0] particles, the count is
    [n] and the time step 0.01. *)
Theorem init_places_each_radius (fuel : nat) (ds : draws) (n : Z)
    (radius : radius_arg) (srf : option field) (w : Simulation.t) :
  Simulation.init fuel ds n radius srf = Ok w ->
  Simulation.n w = n /\ Simulation.dt w = 0.01 /\ Simulation.srf w = srf /\
  length (Simulation.particles w) = Z.to_nat n /\
  (fun o => Particle.radius (body o)) <$> Simulation.particles w
    = requested_radii n radius /\
  Forall (fun o => (exists p, o = Plain p) /\
                   Particle.delete (body o) = false /\
                   mass_from_radius o) (Simulation.particles w).
Proof.
  intros H. destruct (init_ok _ _ _ _ _ _ H) as (Hn & Hdt & Hsrf & Hlen & Hpl & _).
  repeat (split; [assumption|]).
  split; [rewrite <- (Forall2_length _ _ _ Hpl); exact Hlen|].
  clear H Hlen. induction Hpl as [|rad o rads os Ho _ IH]; cbn.
  - split; constructor.
  - destruct IH as [IH1 IH2]. destruct (placed_facts _ _ _ Ho) as (Hr & Hd & Hm).
    split; [rewrite Hr; f_equal; exact IH1|].
    constructor; [|exact IH2].
    split; [destruct Ho as [k ->]; eauto | split; assumption].
Qed.

Lemma init_places_each_radius_witness :
  length (Simulation.particles w_two) = Z.to_nat 2 /\
  (fun o => Particle.radius (body o)) <$> Simulation.particles w_two = [0.01; 0.01].
Proof.
  destruct (init_places_each_radius 3 two_draws 2 (Scalar 0.01) None w_two eq_refl)
    as (_ & _ & _ & Hlen & Hrad & _).
  split; [exact Hlen | exact Hrad].
Defined.

(** X13.  In the list a constructor returns, no two particles overlap. *)
Theorem init_pairwise_apart (fuel : nat) (ds : draws) (n : Z)
    (radius : radius_arg) (srf : option field) (w : Simulation.t) :
  Simulation.init fuel ds n radius srf = Ok w ->
  pairwise_apart (Simulation.particles w).
Proof. intros H. apply (init_ok _ _ _ _ _ _ H). Qed.

Lemma init_pairwise_apart_witness : pairwise_apart (Simulation.particles w_two).
Proof.
  apply (init_pairwise_apart 3 two_draws 2 (Scalar 0.01) None w_two). reflexivity.
Defined.




(** X15.  Every particle of a constructed simulation starts with a velocity
    along the first axis: the second component is zero and the first lies
    from 0.05 (included) to 0.1 (excluded). *)
Theorem init_velocities (fuel : nat) (ds : draws) (n : Z)
    (radius : radius_arg) (srf : option field) (w : Simulation.t) :
  (forall k, valid_speed_draw (ds k)) ->
  Simulation.init fuel ds n radius srf = Ok w ->
  Forall (fun o => exists a b, Particle.v (body o) = (Fin a, Fin b) /\
                     0.05 <= a /\ a < 0.1 /\ b == 0) (Simulation.particles w).
Proof.
  intros Hds H.
  destruct (init_ok _ _ _ _ _ _ H) as (_ & _ & _ & _ & Hpl & _).
  clear H. induction Hpl as [|rad o rads os Ho _ IH]; constructor; [|exact IH].
  destruct Ho as [k ->]. destruct (Hds k) as [H0 H1]. cbn.
  eexists _, _. split; [reflexivity|]. repeat split; lra.
Qed.

Lemma two_draws_valid_speed (k : nat) : valid_speed_draw (two_draws k).
Proof. destruct k; vm_compute; intuition discriminate. Defined.

Lemma init_velocities_witness :
  Forall (fun o => exists a b, Particle.v (body o) = (Fin a, Fin b) /\
                     0.05 <= a /\ a < 0.1 /\ b == 0) (Simulation.particles w_two).
Proof.
  apply (init_velocities 3 two_draws 2 (Scalar 0.01) None w_two two_draws_valid_speed).
  reflexivity.
Defined.

(** X16.  On a freshly constructed simulation the collision pass changes
    nothing. *)
Theorem init_then_handle_collisions (fuel : nat) (ds : draws) (n : Z)
    (radius : radius_arg) (srf : option field) (w : Simulation.t) :
  Simulation.init fuel ds n radius srf = Ok w ->
  Simulation.handle_collisions w = Ok w.
Proof.
  intros H.
  destruct (init_ok _ _ _ _ _ _ H) as (Hn & _ & _ & Hlen & Hpl & Hap).
  unfold Simulation.handle_collisions. rewrite collide_no_overlap.
  - cbn [bind]. destruct w; reflexivity.
  - intros i j Hin. apply elem_of_combinations2 in Hin as [Hij Hjn].
    rewrite Hn, <- Hlen, (Forall2_length _ _ _ Hpl) in Hjn.
    destruct (lookup_lt_is_Some_2 (Simulation.particles w) i ltac:(lia)) as [oi Hoi].
    destruct (lookup_lt_is_Some_2 (Simulation.particles w) j ltac:(lia)) as [oj Hoj].
    exists oi, oj. split; [exact Hoi|]. split; [exact Hoj|].
    apply (Hap i j oi oj); [lia | assumption | assumption].
Qed.

Lemma init_then_handle_collisions_witness :
  Simulation.handle_collisions w_two = Ok w_two.
Proof.
  apply (init_then_handle_collisions 3 two_draws 2 (Scalar 0.01) None w_two).
  reflexivity.
Defined.

(** ** The tick, again *)

Lemma advance_loop_sync (rnd : kicks) (fuel : nat) :
  forall i w k w' k',
  Simulation.advance_loop fuel rnd i w k = Ok (w', k') ->
  count_offset w' = count_offset w /\
  Simulation.dt w' = Simulation.dt w /\
  Simulation.srf w' = Simulation.srf w /\
  (length (Simulation.particles w') <= length (Simulation.particles w))%nat.
Proof.
  unfold count_offset.
  induction fuel as [|fuel IH]; intros i w k w' k' H;
    cbn [Simulation.advance_loop] in H; [discriminate H|].
  destruct (Simulation.particles w !! i) as [p|] eqn:E.
  - pose proof (lookup_lt_Some _ _ _ E) as Hi.
    destruct (Particle.delete (body p)).
    + destruct (IH _ _ _ _ _ H) as (H1 & H2 & H3 & H4). cbn in H1, H2, H3, H4.
      rewrite length_delete in H1, H4 by (rewrite E; eauto).
      repeat split; try assumption; lia.
    + destruct (object_advance (Simulation.dt w) rnd k p) as [p1 k1].
      destruct (Simulation.apply_forces w _) as [b| e |]; cbn [bind] in H;
        try discriminate H.
      destruct (IH _ _ _ _ _ H) as (H1 & H2 & H3 & H4). cbn in H1, H2, H3, H4.
      rewrite length_insert in H1, H4. repeat split; assumption.
  - injection H as <- <-. repeat split; reflexivity || lia.
Qed.

Lemma hw1_advance_loop_sync (rnd : kicks) (fuel : nat) :
  forall i w k w' k',
  hw1_environment.advance_loop fuel rnd i w k = Ok (w', k') ->
  count_offset w' = count_offset w /\
  Simulation.dt w' = Simulation.dt w /\
  Simulation.srf w' = Simulation.srf w /\
  (length (Simulation.particles w') <= length (Simulation.particles w))%nat.
Proof.
  unfold count_offset.
  induction fuel as [|fuel IH]; intros i w k w' k' H;
    cbn [hw1_environment.advance_loop] in H; [discriminate H|].
  destruct (Simulation.particles w !! i) as [p|] eqn:E.
  - pose proof (lookup_lt_Some _ _ _ E) as Hi.
    destruct (Particle.delete (body p)).
    + destruct (IH _ _ _ _ _ H) as (H1 & H2 & H3 & H4). cbn in H1, H2, H3, H4.
      rewrite length_delete in H1, H4 by (rewrite E; eauto).
      repeat split; try assumption; lia.
    + destruct (object_advance (Simulation.dt w) rnd k p) as [p1 k1].
      destruct (hw1_environment.interact w p1) as [b| e |]; cbn [bind] in H;
        try discriminate H.
      destruct (IH _ _ _ _ _ H) as (H1 & H2 & H3 & H4). cbn in H1, H2, H3, H4.
      rewrite length_insert in H1, H4. repeat split; assumption.
  - injection H as <- <-. repeat split; reflexivity || lia.
Qed.

Lemma handle_collisions_sync (w w' : Simulation.t) :
  Simulation.handle_collisions w = Ok w' ->
  count_offset w' = count_offset w /\
  Simulation.dt w' = Simulation.dt w /\
  Simulation.srf w' = Simulation.srf w /\
  length (Simulation.particles w') = length (Simulation.particles w).
Proof.
  unfold Simulation.handle_collisions, count_offset. intros H.
  destruct (Simulation.collide _ (Simulation.particles w)) as [ps'| e |] eqn:E;
    cbn [bind] in H; try discriminate H.
  injection H as <-. cbn. destruct (collide_frame _ _ _ E) as [Hlen _].
  rewrite Hlen. repeat split; reflexivity.
Qed.

(** X17.  A tick that returns, of either simulation class, keeps the count
    in step with the list: the difference between [n] and the length of the
    list is what it was, so a count equal to the length stays equal; the list
    never grows, and the time step and the field are untouched. *)
Theorem advance_keeps_count_in_step (rnd : kicks) (w w' : Simulation.t) (k k' : nat) :
  Simulation.advance rnd w k = Ok (w', k') \/
  hw1_environment.advance rnd w k = Ok (w', k') ->
  count_offset w' = count_offset w /\
  Simulation.dt w' = Simulation.dt w /\
  Simulation.srf w' = Simulation.srf w /\
  (length (Simulation.particles w') <= length (Simulation.particles w))%nat.
Proof.
  unfold Simulation.advance, hw1_environment.advance. intros [H|H].
  - destruct (Simulation.advance_loop _ rnd 0 w k) as [[w1 k1]| e |] eqn:E;
      cbn [bind] in H; try discriminate H.
    destruct (Simulation.handle_collisions w1) as [w2| e |] eqn:C;
      cbn [bind] in H; try discriminate H.
    injection H as <- <-.
    destruct (advance_loop_sync _ _ _ _ _ _ _ E) as (A1 & A2 & A3 & A4).
    destruct (handle_collisions_sync _ _ C) as (B1 & B2 & B3 & B4).
    repeat split; congruence || lia.
  - destruct (hw1_environment.advance_loop _ rnd 0 w k) as [[w1 k1]| e |] eqn:E;
      cbn [bind] in H; try discriminate H.
    destruct (Simulation.handle_collisions w1) as [w2| e |] eqn:C;
      cbn [bind] in H; try discriminate H.
    injection H as <- <-.
    destruct (hw1_advance_loop_sync _ _ _ _ _ _ _ E) as (A1 & A2 & A3 & A4).
    destruct (handle_collisions_sync _ _ C) as (B1 & B2 & B3 & B4).
    repeat split; congruence || lia.
Qed.

Lemma advance_keeps_count_in_step_witness :
  count_offset (Simulation.mk [Plain p_live] 1 0.01 None) = count_offset w_dead_live.
Proof.
  apply (advance_keeps_count_in_step still w_dead_live
           (Simulation.mk [Plain p_live] 1 0.01 None) 0 0).
  left. reflexivity.
Defined.

(** X18.  When no particle of the list is marked, [Simulation.advance] does
    what it is meant to: it visits every particle once, in order (advance,
    walls, forces), and then runs the collision pass on the result. *)
Theorem advance_without_removal (rnd : kicks) (w : Simulation.t) (k : nat) :
  Forall unmarked (Simulation.particles w) ->
  Simulation.advance rnd w k
    = let! (ps, k') := visit_each w rnd k (Simulation.particles w) in
      let! w' := Simulation.handle_collisions (Simulation.set_particles w ps) in
      Ok (w', k').
Proof.
  intros Hlive. unfold Simulation.advance.
  rewrite (advance_loop_no_removal rnd (Simulation.particles w) [] w k _ eq_refl Hlive)
    by lia.
  destruct (visit_each w rnd k (Simulation.particles w)) as [[ps k']| e |];
    reflexivity.
Qed.

Lemma advance_without_removal_witness :
  Simulation.advance still w_live 0
    = let! (ps, k') := visit_each w_live still 0 (Simulation.particles w_live) in
      let! w' := Simulation.handle_collisions (Simulation.set_particles w_live ps) in
      Ok (w', k').
Proof.
  apply advance_without_removal. repeat constructor.
Defined.

(** X19.  [Simulation.advance] cannot run on a scalar field, the kind its
    constructor has as default: as soon as the first particle is unmarked the
    tick raises IndexError, from the two indices applied to a row of the
    field in [apply_forces]. *)
Theorem advance_on_scalar_field (rnd : kicks) (w : Simulation.t) (k : nat)
    (f : nat -> nat -> Q) (p : object) (rest : list object) :
  Simulation.srf w = Some (ScalarField f) ->
  Simulation.particles w = p :: rest ->
  unmarked p ->
  Simulation.advance rnd w k = Raise IndexError.
Proof.
  intros Hsrf Hps Hp. unfold Simulation.advance.
  rewrite Hps. cbn [length Simulation.advance_loop]. rewrite Hps. cbn [lookup list_lookup].
  unfold unmarked in Hp. rewrite Hp.
  destruct (object_advance (Simulation.dt w) rnd k p) as [p1 k1].
  unfold Simulation.apply_forces. rewrite Hsrf. reflexivity.
Qed.

Lemma advance_on_scalar_field_witness :
  Simulation.advance still w_live_scalar 0 = Raise IndexError.
Proof.
  apply (advance_on_scalar_field still w_live_scalar 0 (fun _ _ => 0)
           (Plain p_live) []); reflexivity.
Defined.

(** ** Agents, again *)

(** Splits a goal about a tick of the agent with temperature [T], set point
    [sp] and margin [mg] along the comparisons that the tick makes. *)
Ltac agent_cases T sp mg :=
  unfold agent_advance, homeostasis_agent.advance, hwParticle.advance,
         homeostasis_agent.advance_body, homeostasis_agent.exist,
         homeostasis_agent.monitor, Qgtb, deleted, mark;
  cbn;
  match goal with
  | |- context [Qltb ?f 0] => destruct (Qltb f 0) eqn:?; cbn
  end;
  destruct (Qltb T 85) eqn:?, (Qltb 105 T) eqn:?; cbn;
  destruct (Qltb (T - sp) mg) eqn:?, (Qltb mg (T - sp)) eqn:?; cbn.

(** X20.  A tick of an agent, of either class, appends exactly one entry to
    each log: the temperature and the food store that the agent had when the
    tick began, before it consumed or moved. *)
Theorem agent_advance_logs (c : agent_class) (dt : Q) (rnd : kicks) (k : nat)
    (a : homeostasis_agent.t) :
  let a' := (agent_advance c dt rnd k a).1 in
  homeostasis_agent.temp_log a'
    = homeostasis_agent.temp_log a ++ [homeostasis_agent.temperature a] /\
  exists f, homeostasis_agent.food_log a' = homeostasis_agent.food_log a ++ [f] /\
            f == homeostasis_agent.food_store a.
Proof.
  destruct a as [[r v rad m del] food T sp mg tl fl].
  destruct c; agent_cases T sp mg;
    (split; [reflexivity|]); eexists; (split; [reflexivity|]); lra.
Qed.

(** X21.  Death is final for the flag: a tick never clears it. *)
Theorem agent_advance_keeps_deleted (c : agent_class) (dt : Q) (rnd : kicks) (k : nat)
    (a : homeostasis_agent.t) :
  deleted a = true -> deleted (agent_advance c dt rnd k a).1 = true.
Proof.
  destruct a as [[r v rad m del] food T sp mg tl fl]. unfold deleted; cbn.
  intros ->. destruct c; agent_cases T sp mg; reflexivity.
Qed.

Lemma agent_advance_keeps_deleted_witness :
  deleted (agent_advance ChwParticle 0.01 still 0 a_dead).1 = true.
Proof. apply agent_advance_keeps_deleted. reflexivity. Defined.

(** X22.  By itself an agent never gains food and never cools: for a time
    step that is not negative, a tick leaves the food store at most what it
    was and the temperature at least what it was. *)
Theorem agent_advance_monotone (c : agent_class) (dt : Q) (rnd : kicks) (k : nat)
    (a : homeostasis_agent.t) :
  0 <= dt ->
  let a' := (agent_advance c dt rnd k a).1 in
  homeostasis_agent.food_store a' <= homeostasis_agent.food_store a /\
  homeostasis_agent.temperature a <= homeostasis_agent.temperature a'.
Proof.
  destruct a as [[r v rad m del] food T sp mg tl fl]. intros Hdt.
  destruct c; agent_cases T sp mg; split; lra.
Qed.

Lemma agent_advance_monotone_witness :
  homeostasis_agent.food_store (agent_advance ChwParticle 0.01 still 0 a_warm).1
    <= homeostasis_agent.food_store a_warm /\
  homeostasis_agent.temperature a_warm
    <= homeostasis_agent.temperature (agent_advance ChwParticle 0.01 still 0 a_warm).1.
Proof.
  apply (agent_advance_monotone ChwParticle 0.01 still 0 a_warm).
  vm_compute. discriminate.
Defined.

(** X23.  The policy does not read the flag: a tick of a dead agent does to
    food store, temperature, logs, position and velocity what it does to the
    same agent alive, with the same draws. *)
Theorem agent_advance_ignores_deleted (c : agent_class) (dt : Q) (rnd : kicks) (k : nat)
    (a : homeostasis_agent.t) :
  agent_advance c dt rnd k (mark a)
    = (mark (agent_advance c dt rnd k a).1, (agent_advance c dt rnd k a).2).
Proof.
  destruct a as [[r v rad m del] food T sp mg tl fl].
  destruct c; agent_cases T sp mg; reflexivity.
Qed.

(** X24.  The draw made by [exist] has no effect: for a finite state, and
    whatever the pair drawn, [exist] multiplies the velocity by 0.95 and moves
    the agent by the time step times the new velocity, for both classes. *)
Theorem exist_ignores_draw (c : agent_class) (dt : Q) (u : Q * Q)
    (a : homeostasis_agent.t) :
  finite (homeostasis_agent.super a) ->
  let p := homeostasis_agent.super a in
  let p' := homeostasis_agent.super (homeostasis_agent.exist (move_of c) dt u a) in
  vec_eq (Particle.v p') (vscale 0.95 (Particle.v p)) /\
  vec_eq (Particle.r p')
         (vadd (Particle.r p) (vscale dt (vscale 0.95 (Particle.v p)))).
Proof.
  destruct a as [[[x y] [vx vy] rad m del] food T sp mg tl fl].
  unfold finite; cbn. intros (Hx & Hy & Hvx & Hvy).
  destruct x as [x|], y as [y|], vx as [vx|], vy as [vy|]; try contradiction.
  unfold homeostasis_agent.exist, Qgtb, vec_eq.
  destruct c; cbn;
    match goal with
    | |- context [Qltb ?f 0] => destruct (Qltb f 0); cbn
    end;
    destruct (Qltb T 85), (Qltb 105 T); cbn; repeat split; ring.
Qed.

Lemma exist_ignores_draw_witness :
  let p := homeostasis_agent.super a_healthy in
  let p' := homeostasis_agent.super
              (homeostasis_agent.exist (move_of ChwParticle) 0.01 (0.7, -0.3) a_healthy) in
  vec_eq (Particle.v p') (vscale 0.95 (Particle.v p)) /\
  vec_eq (Particle.r p')
         (vadd (Particle.r p) (vscale 0.01 (vscale 0.95 (Particle.v p)))).
Proof.
  apply (exist_ignores_draw ChwParticle 0.01 (0.7, -0.3) a_healthy).
  vm_compute. tauto.
Defined.

(** ** The grid *)

Lemma argmin_scan_spec (x : Q) (count : nat) :
  forall k best,
  (best < k)%nat ->
  (forall j, (j < k)%nat ->
     Qabs (grid_point best - x) <= Qabs (grid_point j - x)) ->
  (forall j, (j < best)%nat ->
     Qabs (grid_point best - x) < Qabs (grid_point j - x)) ->
  let r := argmin_scan x k count best in
  (r < k + count)%nat /\
  (forall j, (j < k + count)%nat ->
     Qabs (grid_point r - x) <= Qabs (grid_point j - x)) /\
  (forall j, (j < r)%nat ->
     Qabs (grid_point r - x) < Qabs (grid_point j - x)).
Proof.
  induction count as [|count IH]; intros k best Hlt Hmin Hfirst; cbn [argmin_scan].
  - rewrite Nat.add_0_r. auto.
  - replace (k + S count)%nat with (S k + count)%nat by lia.
    destruct (Qltb (Qabs (grid_point k - x)) (Qabs (grid_point best - x))) eqn:E.
    + apply Qltb_lt in E. apply IH; [lia | |].
      * intros j Hj. destruct (decide (j = k)) as [->|Hne]; [apply Qle_refl|].
        specialize (Hmin j ltac:(lia)). lra.
      * intros j Hj. specialize (Hmin j Hj). lra.
    + apply Qltb_ge in E. apply IH; [lia | | exact Hfirst].
      intros j Hj. destruct (decide (j = k)) as [->|Hne]; [exact E|].
      apply Hmin. lia.
Qed.

Lemma grid_point_lt (j j' : nat) : (j < j')%nat -> grid_point j < grid_point j'.
Proof.
  intros H. unfold grid_point, Qdiv, Qlt; cbn. lia.
Qed.

Lemma grid_point_nonneg (j : nat) : 0 <= grid_point j.
Proof. unfold grid_point, Qdiv, Qle; cbn. lia. Qed.

Lemma grid_point_99 : grid_point 99 == 1.
Proof. reflexivity. Qed.

(** X25.  The grid index of a coordinate is always one of the 100 indices
    of the field, NaN and coordinates outside the domain included; for a
    finite coordinate it is the first index whose grid point is nearest;
    coordinates at or below 0 get index 0, those at or above 1 index 99. *)
Theorem grid_index_nearest (x : num) :
  (grid_index x < 100)%nat /\
  forall q, x = Fin q ->
    (forall j, (j < 100)%nat ->
       Qabs (grid_point (grid_index x) - q) <= Qabs (grid_point j - q)) /\
    (forall j, (j < grid_index x)%nat ->
       Qabs (grid_point (grid_index x) - q) < Qabs (grid_point j - q)) /\
    (q <= 0 -> grid_index x = 0%nat) /\
    (1 <= q -> grid_index x = 99%nat).
Proof.
  destruct x as [q|]; cbn [grid_index].
  2: { split; [lia | intros q H; discriminate H]. }
  destruct (argmin_scan_spec q 99 1 0) as (Hr & Hmin & Hfirst).
  { lia. }
  { intros j Hj. assert (j = 0%nat) as -> by lia. apply Qle_refl. }
  { intros j Hj. lia. }
  cbn zeta in Hr, Hmin, Hfirst. change (1 + 99)%nat with 100%nat in Hr, Hmin.
  split; [exact Hr|]. intros q' Hq. injection Hq as <-.
  split; [exact Hmin|]. split; [exact Hfirst|].
  set (r := argmin_scan q 1 99 0) in *. split.
  - intros Hq0. destruct (decide (r = 0%nat)) as [E|E]; [exact E|exfalso].
    specialize (Hfirst 0%nat ltac:(lia)).
    pose proof (grid_point_lt 0 r ltac:(lia)) as Hlt.
    pose proof (grid_point_nonneg 0) as H0.
    rewrite !Qabs_pos in Hfirst by lra. lra.
  - intros Hq1. destruct (decide (r = 99%nat)) as [E|E]; [exact E|exfalso].
    specialize (Hmin 99%nat ltac:(lia)).
    pose proof (grid_point_lt r 99 ltac:(lia)) as Hlt.
    pose proof grid_point_99 as H99.
    rewrite !Qabs_neg in Hmin by lra. lra.
Qed.

Lemma grid_index_nearest_witness :
  grid_index (Fin (-3)) = 0%nat /\ grid_index (Fin 7) = 99%nat.
Proof.
  split.
  - destruct (grid_index_nearest (Fin (-3))) as [_ H].
    apply (H (-3) eq_refl). vm_compute. discriminate.
  - destruct (grid_index_nearest (Fin 7)) as [_ H].
    apply (H 7 eq_refl). vm_compute. discriminate.
Defined.

(** ** Free flight *)

Lemma inject_Z_succ (k : nat) :
  inject_Z (Z.of_nat (S k)) == inject_Z (Z.of_nat k) + 1.
Proof. rewrite Nat2Z.inj_succ. unfold Z.succ. rewrite inject_Z_plus. reflexivity. Qed.

(** X26.  The damping of [Particle.advance] is a constant pull, the same on
    both axes and independent of the velocity: after [k] ticks without walls
    or collisions, each velocity component is down by [k] times
    [mass * dt / 2], and the position is that of a uniformly decelerated
    motion; radius, mass and flag are unchanged. *)
Theorem advance_times_closed_form (dt : Q) (k : nat) (p : Particle.t) (x y a b : Q) :
  Particle.r p = (Fin x, Fin y) -> Particle.v p = (Fin a, Fin b) ->
  let c := 0.5 * Particle.mass p * dt in
  let K := inject_Z (Z.of_nat k) in
  exists x' y' a' b',
    advance_times dt k p
      = Particle.mk (Fin x', Fin y') (Fin a', Fin b')
                    (Particle.radius p) (Particle.mass p) (Particle.delete p) /\
    a' == a - K * c /\ b' == b - K * c /\
    x' == x + K * dt * a - dt * c * K * (K - 1) * 0.5 /\
    y' == y + K * dt * b - dt * c * K * (K - 1) * 0.5.
Proof.
  destruct p as [r v rad m del]; cbn. intros -> ->.
  induction k as [|k IH].
  - exists x, y, a, b. split; [reflexivity|]. cbn. repeat split; ring.
  - destruct IH as (x' & y' & a' & b' & E & Ha & Hb & Hx & Hy).
    unfold advance_times in *. rewrite Nat.iter_succ, E.
    unfold Particle.advance; cbn.
    eexists _, _, _, _. split; [reflexivity|].
    rewrite inject_Z_succ. repeat split; lra || nra.
Qed.

Lemma advance_times_closed_form_witness :
  exists x' y' a' b',
    advance_times 0.01 3 p_far
      = Particle.mk (Fin x', Fin y') (Fin a', Fin b')
                    (Particle.radius p_far) (Particle.mass p_far) (Particle.delete p_far) /\
    a' == 0 - inject_Z 3 * (0.5 * Particle.mass p_far * 0.01) /\
    b' == 0.2 - inject_Z 3 * (0.5 * Particle.mass p_far * 0.01) /\
    x' == 0.1 + inject_Z 3 * 0.01 * 0
          - 0.01 * (0.5 * Particle.mass p_far * 0.01) * inject_Z 3 * (inject_Z 3 - 1) * 0.5 /\
    y' == 0.9 + inject_Z 3 * 0.01 * 0.2
          - 0.01 * (0.5 * Particle.mass p_far * 0.01) * inject_Z 3 * (inject_Z 3 - 1) * 0.5.
Proof.
  apply (advance_times_closed_form 0.01 3 p_far 0.1 0.9 0 0.2); reflexivity.
Defined.

(** ** Conservation over a whole pass *)

(** A resolved pair, in terms of the per-particle quantities. *)
Lemma resolve_pair (p1 p2 : Particle.t) :
  finite p1 -> finite p2 ->
  ~ centres_coincide p1 p2 ->
  ~ Particle.mass p1 + Particle.mass p2 == 0 ->
  exists u1 u2,
    Simulation.change_velocities p1 p2
      = Ok (Particle.set_v p1 u1, Particle.set_v p2 u2) /\
    finite (Particle.set_v p1 u1) /\ finite (Particle.set_v p2 u2) /\
    px (Particle.set_v p1 u1) + px (Particle.set_v p2 u2) == px p1 + px p2 /\
    py (Particle.set_v p1 u1) + py (Particle.set_v p2 u2) == py p1 + py p2 /\
    ke (Particle.set_v p1 u1) + ke (Particle.set_v p2 u2) == ke p1 + ke p2.
Proof.
  destruct p1 as [[x1 y1] [a1 b1] rad1 m1 del1], p2 as [[x2 y2] [a2 b2] rad2 m2 del2].
  unfold finite, centres_coincide; cbn.
  intros (Hx1 & Hy1 & Ha1 & Hb1) (Hx2 & Hy2 & Ha2 & Hb2) Hdist HM.
  destruct x1 as [x1|], y1 as [y1|], a1 as [a1|], b1 as [b1|]; try contradiction.
  destruct x2 as [x2|], y2 as [y2|], a2 as [a2|], b2 as [b2|]; try contradiction.
  cbn in Hdist.
  assert (Hd : ~ (x1 - x2) * (x1 - x2) + (y1 - y2) * (y1 - y2) == 0).
  { intros H. apply sum_squares_zero in H as [Hx Hy]. apply Hdist. split; lra. }
  unfold Simulation.change_velocities; cbn.
  rewrite (Qeq_bool_false _ _ HM), (Qeq_bool_false _ _ Hd).
  eexists _, _. split; [reflexivity|].
  unfold px, py, ke; cbn.
  split; [tauto|]. split; [tauto|].
  repeat split; field; auto.
Qed.

Lemma body_with_body (o : object) (p : Particle.t) : body (with_body o p) = p.
Proof. destruct o; reflexivity. Qed.

(** The sum after the object of one slot has been replaced. *)
Lemma total_insert (f : Particle.t -> Q) (ps : list object) :
  forall i o o',
  ps !! i = Some o ->
  total f (<[i := o']> ps) + f (body o) == total f ps + f (body o').
Proof.
  induction ps as [|q ps IH]; intros i o o' Hi; [discriminate Hi|].
  destruct i as [|i]; cbn in Hi.
  - injection Hi as ->.
    change (total f (o' :: ps) + f (body o) == total f (o :: ps) + f (body o')).
    unfold total; cbn [fold_right]. lra.
  - specialize (IH i o o' Hi).
    change (total f (q :: <[i := o']> ps) + f (body o)
            == total f (q :: ps) + f (body o')).
    unfold total in *; cbn [fold_right]. lra.
Qed.

Lemma velocities_apart_inv (ps ps' : list object) (m : nat) (o' : object) :
  velocities_apart ps ps' -> ps' !! m = Some o' ->
  exists o, ps !! m = Some o /\ same_but_velocity o o'.
Proof.
  intros [Hlen Hslots] Hm. pose proof (lookup_lt_Some _ _ _ Hm) as Hlt.
  rewrite Hlen in Hlt. destruct (lookup_lt_is_Some_2 ps m Hlt) as [o Ho].
  destruct (Hslots _ _ Ho) as (o'' & Ho'' & Hsame).
  rewrite Hm in Ho''. injection Ho'' as <-. eauto.
Qed.

Lemma no_coincident_overlap_apart (ps ps' : list object) (pairs : list (nat * nat)) :
  velocities_apart ps ps' ->
  no_coincident_overlap ps pairs -> no_coincident_overlap ps' pairs.
Proof.
  intros Hap H i j oi' oj' Hin Hi Hj Hov.
  destruct (velocities_apart_inv _ _ _ _ Hap Hi) as (oi & Hoi & Hsi).
  destruct (velocities_apart_inv _ _ _ _ Hap Hj) as (oj & Hoj & Hsj).
  destruct (same_but_velocity_body _ _ Hsi) as (Hri & _).
  destruct (same_but_velocity_body _ _ Hsj) as (Hrj & _).
  rewrite (overlaps_same_but_velocity _ _ _ _ Hsi Hsj) in Hov.
  pose proof (H i j oi oj Hin Hoi Hoj Hov) as Hnc.
  unfold centres_coincide, Particle.x, Particle.y in *. rewrite Hri, Hrj. exact Hnc.
Qed.

Lemma collide_conserves (pairs : list (nat * nat)) :
  forall ps,
  (forall i j, (i, j) ∈ pairs -> (i < j)%nat /\ (j < length ps)%nat) ->
  Forall (fun o => finite (body o)) ps ->
  Forall mass_from_radius ps ->
  no_coincident_overlap ps pairs ->
  exists ps',
    Simulation.collide pairs ps = Ok ps' /\
    Forall (fun o => finite (body o)) ps' /\
    total px ps' == total px ps /\
    total py ps' == total py ps /\
    total ke ps' == total ke ps.
Proof.
  induction pairs as [|[i j] pairs IH]; intros ps Hrange Hfin Hmass Hnc;
    cbn [Simulation.collide].
  - exists ps. repeat split; try assumption; reflexivity.
  - destruct (Hrange i j ltac:(left)) as [Hij Hj].
    destruct (lookup_lt_is_Some_2 ps i ltac:(lia)) as [oi Hoi].
    destruct (lookup_lt_is_Some_2 ps j Hj) as [oj Hoj].
    rewrite Hoi, Hoj.
    destruct (Particle.overlaps (body oi) (body oj)) eqn:Hov.
    + pose proof (Forall_lookup_1 _ _ _ _ Hmass Hoi) as Hmi.
      pose proof (Forall_lookup_1 _ _ _ _ Hmass Hoj) as Hmj.
      pose proof (Forall_lookup_1 _ _ _ _ Hfin Hoi) as Hfi.
      pose proof (Forall_lookup_1 _ _ _ _ Hfin Hoj) as Hfj.
      cbn beta in Hfi, Hfj.
      pose proof (overlap_mass_nonzero _ _ Hmi Hmj Hov) as HM.
      pose proof (Hnc i j oi oj ltac:(left) Hoi Hoj Hov) as Hdist.
      destruct (resolve_pair _ _ Hfi Hfj Hdist HM)
        as (u1 & u2 & -> & Hf1 & Hf2 & Hpx & Hpy & Hke).
      cbn [bind].
      set (oi' := with_body oi (Particle.set_v (body oi) u1)) in *.
      set (oj' := with_body oj (Particle.set_v (body oj) u2)) in *.
      destruct (velocities_apart_step ps i j oi oj u1 u2 Hoi Hoj) as [Hap _].
      cbn zeta in Hap. fold oi' oj' in Hap.
      assert (Hoj1 : <[i := oi']> ps !! j = Some oj)
        by (rewrite list_lookup_insert_ne by lia; exact Hoj).
      destruct (IH (<[j := oj']> (<[i := oi']> ps))) as (ps' & E & Hfin' & Tx & Ty & Tk).
      * intros i0 j0 Hin. rewrite !length_insert. apply Hrange. right. exact Hin.
      * apply Forall_insert; [apply Forall_insert; [exact Hfin|]|];
          unfold oi', oj'; rewrite body_with_body; assumption.
      * apply Forall_insert; [apply Forall_insert; [exact Hmass|]|].
        -- eapply mass_from_radius_same; [apply same_but_velocity_set_v | exact Hmi].
        -- eapply mass_from_radius_same; [apply same_but_velocity_set_v | exact Hmj].
      * eapply no_coincident_overlap_apart; [exact Hap|].
        intros i0 j0 oi0 oj0 Hin. apply Hnc. right. exact Hin.
      * exists ps'. split; [exact E|]. split; [exact Hfin'|].
        pose proof (total_insert px _ _ _ oi' Hoi) as X1.
        pose proof (total_insert px _ _ _ oj' Hoj1) as X2.
        pose proof (total_insert py _ _ _ oi' Hoi) as Y1.
        pose proof (total_insert py _ _ _ oj' Hoj1) as Y2.
        pose proof (total_insert ke _ _ _ oi' Hoi) as K1.
        pose proof (total_insert ke _ _ _ oj' Hoj1) as K2.
        subst oi' oj'.
        rewrite !body_with_body in X1, X2, Y1, Y2, K1, K2.
        repeat split; lra.
    + apply IH; try assumption.
      * intros i0 j0 Hin. apply Hrange. right. exact Hin.
      * intros i0 j0 oi0 oj0 Hin. apply Hnc. right. exact Hin.
Qed.

(** X27.  A whole collision pass conserves total momentum and total kinetic
    energy, exactly: when the count does not exceed the length of the list,
    all positions and velocities are finite, masses are squared radii and no
    two overlapping particles have the same centre, the pass returns, every
    velocity is still finite, and the sums over all particles of [m vx], of
    [m vy] and of [m |v|^2 / 2] are what they were. *)
Theorem handle_collisions_conserves (w : Simulation.t) :
  (Z.to_nat (Simulation.n w) <= length (Simulation.particles w))%nat ->
  Forall (fun o => finite (body o)) (Simulation.particles w) ->
  Forall mass_from_radius (Simulation.particles w) ->
  no_coincident_overlap (Simulation.particles w)
    (combinations2 (Z.to_nat (Simulation.n w))) ->
  exists w',
    Simulation.handle_collisions w = Ok w' /\
    Forall (fun o => finite (body o)) (Simulation.particles w') /\
    total px (Simulation.particles w') == total px (Simulation.particles w) /\
    total py (Simulation.particles w') == total py (Simulation.particles w) /\
    total ke (Simulation.particles w') == total ke (Simulation.particles w).
Proof.
  intros Hn Hfin Hmass Hnc. unfold Simulation.handle_collisions.
  destruct (collide_conserves (combinations2 (Z.to_nat (Simulation.n w)))
              (Simulation.particles w)) as (ps' & E & H);
    try assumption.
  - intros i j Hin. apply elem_of_combinations2 in Hin. lia.
  - rewrite E. cbn [bind]. eexists. split; [reflexivity|]. exact H.
Qed.

Lemma handle_collisions_conserves_witness :
  exists w',
    Simulation.handle_collisions w_head_on = Ok w' /\
    Forall (fun o => finite (body o)) (Simulation.particles w') /\
    total px (Simulation.particles w') == total px (Simulation.particles w_head_on) /\
    total py (Simulation.particles w') == total py (Simulation.particles w_head_on) /\
    total ke (Simulation.particles w') == total ke (Simulation.particles w_head_on).
Proof.
  apply handle_collisions_conserves.
  - vm_compute. lia.
  - repeat constructor.
  - repeat constructor.
  - intros i j oi oj Hin Hi Hj Hov [Hx Hy].
    apply elem_of_combinations2 in Hin as [Hij Hjn]. cbn in Hjn.
    destruct i as [|[|[|[|i]]]]; try lia;
    destruct j as [|[|[|[|j]]]]; try lia;
    cbn in Hi, Hj; injection Hi as <-; injection Hj as <-;
    vm_compute in Hov; try discriminate Hov;
    vm_compute in Hx; discriminate Hx.
Defined.

(** ** A tick keeps the particles in the domain *)








(** ** The environment *)

(** X29.  On a scalar field [hw1_environment.interact] returns, and what it
    changes is the velocity, the position by the wall clamping only, and the
    temperature of an agent, by the time step times the field read at the
    grid point nearest to the clamped position; radius, mass, flag, class and
    food store are untouched, and a plain particle stays plain.  Without a
    field it raises AttributeError. *)
Theorem interact_effect (w : Simulation.t) (o : object) :
  (Simulation.srf w = None -> hw1_environment.interact w o = Raise AttributeError) /\
  forall f, Simulation.srf w = Some (ScalarField f) ->
    exists o', hw1_environment.interact w o = Ok o' /\
      let b := Simulation.handle_boundary_collisions (body o) in
      let g := f (grid_index (Particle.x b)) (grid_index (Particle.y b)) in
      Particle.r (body o') = Particle.r b /\
      Particle.radius (body o') = Particle.radius (body o) /\
      Particle.mass (body o') = Particle.mass (body o) /\
      Particle.delete (body o') = Particle.delete (body o) /\
      match o, o' with
      | Plain _, Plain _ => True
      | Agent c a, Agent c' a' =>
          c' = c /\
          homeostasis_agent.temperature a'
            = homeostasis_agent.temperature a + g * Simulation.dt w /\
          homeostasis_agent.food_store a' = homeostasis_agent.food_store a /\
          homeostasis_agent.temp_log a' = homeostasis_agent.temp_log a /\
          homeostasis_agent.food_log a' = homeostasis_agent.food_log a
      | _, _ => False
      end.
Proof.
  split.
  - intros Hsrf. unfold hw1_environment.interact. rewrite Hsrf.
    destruct (Simulation.get_grid_inds _). reflexivity.
  - intros f Hsrf. unfold hw1_environment.interact, Simulation.get_grid_inds.
    rewrite Hsrf, body_with_body.
    destruct (handle_boundary_collisions_frame (body o)) as (Hrad & Hm & Hd).
    cbn zeta in Hrad, Hm, Hd.
    set (b := Simulation.handle_boundary_collisions (body o)) in *.
    set (g := f (grid_index (Particle.x b)) (grid_index (Particle.y b))).
    destruct o as [p|c a]; cbn [with_body body] in *;
      destruct (Qgtb g 0), (Qltb g 0); cbn [with_body body];
      eexists; (split; [reflexivity|]); cbn; auto 10.
Qed.

Lemma interact_effect_witness :
  exists o', hw1_environment.interact w_live_scalar (Agent ChwParticle a_healthy) = Ok o' /\
    match o' with
    | Agent c' a' =>
        homeostasis_agent.temperature a' = homeostasis_agent.temperature a_healthy + 0 * 0.01
    | Plain _ => False
    end.
Proof.
  destruct (interact_effect w_live_scalar (Agent ChwParticle a_healthy)) as [_ H].
  destruct (H (fun _ _ => 0) eq_refl) as (o' & E & _ & _ & _ & _ & Hm).
  exists o'. split; [exact E|].
  destruct o' as [p|c' a']; [exact Hm|]. apply Hm.
Defined.
